(** * tg-checker: identifier resolution and classification

    A shallow embedding of [telegram_bulk_checker.py] and the properties of
    its parser, entity classifier, resolution adapters, formatter, reason
    table, batch driver and tabular export.

    Conventions of the embedding.
    - A Python [str] is a [string]; its characters are the code points below
      256 (Rocq's [ascii]), on which [str.strip], [str.lower] and the [re]
      module act as defined in [PyStr] and [Re].
    - [Optional[T]] is [option T]; Python truthiness is written out
      ([truthy_str], [truthy_obool]).
    - A fault is an instance of Python's [Exception] hierarchy, the ones an
      [except Exception] clause handles; the remote collaborator is a record
      of world-passing operations that either return or raise a fault.
    - Writes to standard output are taken to succeed and are left out of the
      driver's state. *)

From Stdlib Require Import ZArith Ascii String.
From stdpp Require Import base option list strings gmap.

Local Open Scope string_scope.
Local Open Scope Z_scope.
Local Open Scope list_scope.

(** ** Python strings *)

Module PyStr.

Definition chars (s : string) : list ascii := list_ascii_of_string s.
Definition str (l : list ascii) : string := string_of_list_ascii l.

Definition code (c : ascii) : N := N_of_ascii c.

Definition between (lo hi : N) (c : ascii) : bool :=
  ((lo <=? code c) && (code c <=? hi))%N.

(** [str.isspace] on one character: the code points 9-13, 28-32, 133
    and 160. *)
Definition is_space (c : ascii) : bool :=
  between 9 13 c || between 28 32 c || (code c =? 133)%N || (code c =? 160)%N.

Fixpoint lstrip (l : list ascii) : list ascii :=
  match l with
  | c :: l' => if is_space c then lstrip l' else l
  | [] => []
  end.

Fixpoint rstrip (l : list ascii) : list ascii :=
  match l with
  | c :: l' =>
      match rstrip l' with
      | [] => if is_space c then [] else [c]
      | r => c :: r
      end
  | [] => []
  end.

(** [s.strip()] *)
Definition strip (s : string) : string := str (rstrip (lstrip (chars s))).

(** [str.lower] on one character: A-Z and the capital letters 192-222
    other than the multiplication sign 215 move up by 32. *)
Definition lower_char (c : ascii) : ascii :=
  if between 65 90 c || (between 192 222 c && negb (code c =? 215)%N)
  then ascii_of_N (code c + 32) else c.

(** [s.lower()] *)
Definition lower (s : string) : string := str (map lower_char (chars s)).

Fixpoint starts_with (p l : list ascii) : bool :=
  match p, l with
  | [], _ => true
  | a :: p', b :: l' => Ascii.eqb a b && starts_with p' l'
  | _ :: _, [] => false
  end.

Fixpoint find_sub (p l : list ascii) : bool :=
  starts_with p l ||
  match l with
  | [] => false
  | _ :: l' => find_sub p l'
  end.

(** [needle in text] *)
Definition contains (needle text : string) : bool :=
  find_sub (chars needle) (chars text).

(** Truthiness of a [str] and of an [Optional[str]]. *)
Definition truthy_str (s : string) : bool :=
  match s with EmptyString => false | _ => true end.

Definition truthy_ostr (o : option string) : bool :=
  match o with Some s => truthy_str s | None => false end.

(** [a or b] on optional strings. *)
Definition or_ostr (a b : option string) : option string :=
  if truthy_ostr a then a else b.

(** [o or ''] *)
Definition or_empty (o : option string) : string :=
  match or_ostr o (Some "") with Some s => s | None => "" end.

End PyStr.

(** ** The fragment of [re] used by the two patterns *)

Module Re.
Import PyStr.

(** Pattern syntax: a literal character, a bracketed class (a list of
    inclusive ranges) under a greedy counted repetition [{lo,hi}], the
    empty pattern, concatenation, alternation [|], the greedy option
    [?], and a numbered capturing group. *)
Inductive regex : Type :=
| Chr (c : ascii)
| Cls (ranges : list (ascii * ascii)) (lo : nat) (hi : option nat)
| Eps
| Seq (r1 r2 : regex)
| Alt (r1 r2 : regex)
| Opt (r : regex)
| Grp (i : nat) (r : regex).

(** The groups of a match object: group number to captured text. *)
Abbreviation groups := (gmap nat string).

(** ASCII case folding applied by [re.IGNORECASE] to this fragment. *)
Definition fold_lower (c : ascii) : ascii :=
  if between 65 90 c then ascii_of_N (code c + 32) else c.
Definition fold_upper (c : ascii) : ascii :=
  if between 97 122 c then ascii_of_N (code c - 32) else c.

Definition chr_ok (ic : bool) (p c : ascii) : bool :=
  Ascii.eqb p c || (ic && (Ascii.eqb (fold_lower p) (fold_lower c))).

Definition in_ranges (rs : list (ascii * ascii)) (c : ascii) : bool :=
  existsb (fun r => between (code r.1) (code r.2) c) rs.

Definition cls_ok (ic : bool) (rs : list (ascii * ascii)) (c : ascii) : bool :=
  in_ranges rs c || (ic && (in_ranges rs (fold_lower c) || in_ranges rs (fold_upper c))).

Definition room (hi : option nat) : bool :=
  match hi with Some O => false | _ => true end.

Definition less (hi : option nat) : option nat :=
  match hi with Some n => Some (pred n) | None => None end.

(** Greedy counted repetition of a class: take one more character when
    allowed, and fall back to stopping here when the rest fails. *)
Fixpoint rep {R} (ok : ascii -> bool) (lo : nat) (hi : option nat)
    (s : list ascii) (k : list ascii -> option R) : option R :=
  let stop := match lo with O => k s | S _ => None end in
  match s with
  | c :: s' =>
      if ok c && room hi then
        match rep ok (pred lo) (less hi) s' k with
        | Some r => Some r
        | None => stop
        end
      else stop
  | [] => stop
  end.

(** Backtracking matcher in continuation-passing style: [k] receives the
    rest of the subject and the groups set so far. *)
Fixpoint rmatch {R} (ic : bool) (r : regex) (s : list ascii) (g : groups)
    (k : list ascii -> groups -> option R) : option R :=
  match r with
  | Chr p =>
      match s with
      | c :: s' => if chr_ok ic p c then k s' g else None
      | [] => None
      end
  | Cls rs lo hi => rep (cls_ok ic rs) lo hi s (fun s' => k s' g)
  | Eps => k s g
  | Seq r1 r2 => rmatch ic r1 s g (fun s' g' => rmatch ic r2 s' g' k)
  | Alt r1 r2 =>
      match rmatch ic r1 s g k with
      | Some x => Some x
      | None => rmatch ic r2 s g k
      end
  | Opt r1 =>
      match rmatch ic r1 s g k with
      | Some x => Some x
      | None => k s g
      end
  | Grp i r1 =>
      rmatch ic r1 s g
        (fun s' g' => k s' (<[i := str (take (length s - length s') s)]> g'))
  end.

Definition match_at (ic : bool) (r : regex) (s : list ascii) : option groups :=
  rmatch ic r s ∅ (fun _ g => Some g).

(** [pattern.search]: the first start position with a match wins. *)
Fixpoint search_from (ic : bool) (r : regex) (s : list ascii) : option groups :=
  match match_at ic r s with
  | Some g => Some g
  | None =>
      match s with
      | [] => None
      | _ :: s' => search_from ic r s'
      end
  end.

Definition search (ic : bool) (r : regex) (s : string) : option groups :=
  search_from ic r (chars s).

(** A literal word. *)
Definition lit (s : string) : regex :=
  foldr (fun c r => Seq (Chr c) r) Eps (chars s).

(** [m.group(i)] *)
Definition group (m : groups) (i : nat) : option string := m !! i.

End Re.

(** ** Identifier parser *)

Import PyStr Re.

Definition invite_class : list (ascii * ascii) :=
  [("A", "Z"); ("a", "z"); ("0", "9"); ("_", "_"); ("-", "-")]%char.

Definition username_class : list (ascii * ascii) :=
  [("A", "Z"); ("a", "z"); ("0", "9"); ("_", "_")]%char.

(** [(?:https?://)?] *)
Definition scheme : regex :=
  Opt (Seq (lit "http") (Seq (Opt (Chr "s")) (lit "://"))).

(** [(?:https?://)?t\.me/(?:joinchat/|\+)([A-Za-z0-9_-]{16,})|tg://join\?invite=([A-Za-z0-9_-]{16,})] *)
Definition INVITE_RE : regex :=
  Alt (Seq scheme
         (Seq (lit "t.me/")
            (Seq (Alt (lit "joinchat/") (Chr "+"))
               (Grp 1 (Cls invite_class 16 None)))))
      (Seq (lit "tg://join?invite=") (Grp 2 (Cls invite_class 16 None))).

(** [(?:https?://)?t\.me/([A-Za-z0-9_]{5,32})|@([A-Za-z0-9_]{5,32})] *)
Definition USERNAME_RE : regex :=
  Alt (Seq scheme (Seq (lit "t.me/") (Grp 1 (Cls username_class 5 (Some 32%nat)))))
      (Seq (Chr "@") (Grp 2 (Cls username_class 5 (Some 32%nat)))).

(** Both patterns are compiled with [re.IGNORECASE]. *)
Definition IGNORECASE : bool := true.

Definition parse_input (value : string) : string * option string :=
  let value := strip value in
  if negb (truthy_str value) then ("unknown", None)
  else
    match search IGNORECASE INVITE_RE value with
    | Some m_inv => ("invite", or_ostr (group m_inv 1) (group m_inv 2))
    | None =>
        match search IGNORECASE USERNAME_RE value with
        | Some m_user => ("username", or_ostr (group m_user 1) (group m_user 2))
        | None => ("unknown", None)
        end
    end.

(** ** Remote entities and responses *)

(** A [getattr(x, name, default)] on an attribute that may be missing or
    hold [None] is an [option]; [bool(...)] of it is [truthy_obool]. *)
Definition truthy_obool (o : option bool) : bool :=
  match o with Some b => b | None => false end.

(** The entity shapes the code inspects: [types.Channel], [types.Chat],
    [types.User], and any other object, of which only the optional
    [username] and [title] attributes are read. For [OtherEntity] the outer
    [option] of [username] tells whether the attribute exists at all. *)
Inductive Entity : Type :=
| Channel (megagroup : option bool) (username : option string)
    (verified : option bool) (title : option string)
| Chat (verified : option bool) (title : option string)
| User (username : option string) (verified : option bool)
| OtherEntity (username : option (option string)) (title : option string).

(** [getattr(entity, "username", default)] *)
Definition getattr_username (entity : Entity) (default : option string) : option string :=
  match entity with
  | Channel _ u _ _ => u
  | Chat _ _ => default
  | User u _ => u
  | OtherEntity (Some u) _ => u
  | OtherEntity None _ => default
  end.

(** [getattr(entity, "title", None)] *)
Definition getattr_title (entity : Entity) : option string :=
  match entity with
  | Channel _ _ _ t => t
  | Chat _ t => t
  | User _ _ => None
  | OtherEntity _ t => t
  end.

(** [isinstance(entity, types.Channel)] *)
Definition is_Channel (entity : Entity) : bool :=
  match entity with Channel _ _ _ _ => true | _ => false end.

(** What [CheckChatInviteRequest] returns: [types.ChatInvite],
    [types.ChatInviteAlready], or another object. *)
Inductive InviteResponse : Type :=
| ChatInvite (request_needed : option bool) (title : string)
    (participants_count : option Z) (verified : option bool)
    (channel megagroup : option bool)
| ChatInviteAlready (chat : Entity)
| OtherInvite.

(** What [ResolveUsernameRequest] returns. *)
Record ResolvedPeer : Type := {
  chats : list Entity;
  users : list Entity;
}.

(** What [GetFullChannelRequest] returns: the [full_chat] of the answer
    with the two attributes read from it. *)
Record ChannelFull : Type := {
  full_participants_count : option Z;
  requests_pending : option Z;
}.

Record messages_ChatFull : Type := {
  full_chat : option ChannelFull;
}.

Record CheckResult : Type := {
  input_value : string;
  status : string;
  kind : string;
  visibility : string;
  verified : option bool;
  requires_approval : option bool;
  member_count : option Z;
  title : option string;
  username : option string;
  extra : option string;
}.

(** ** Entity classifier

    No step of [classify_chat] can raise: it reads [megagroup] and
    [username] only after the [isinstance] test for a class that declares
    them, and [verified] through [getattr] with a default. *)

Definition classify_chat (entity : Entity) : string * string * option bool :=
  match entity with
  | Channel megagroup uname verif _ =>
      let verified := truthy_obool verif in
      let kind := if truthy_obool megagroup then "supergroup" else "channel" in
      let visibility := if truthy_ostr uname then "public" else "private" in
      (kind, visibility, Some verified)
  | Chat verif _ => ("group", "private", Some (truthy_obool verif))
  | User uname verif =>
      ("user", if truthy_ostr uname then "public" else "private",
       Some (truthy_obool verif))
  | OtherEntity _ _ => ("unknown", "unknown", None)
  end.

(** ** Faults and the collaborator *)

(** The class of a raised exception: the two Telethon classes the username
    adapter names, or any other class with its [__name__]. *)
Inductive exc_class : Type :=
| UsernameInvalidError
| UsernameNotOccupiedError
| OtherError (name : string).

(** [type(e).__name__] *)
Definition type_name (c : exc_class) : string :=
  match c with
  | UsernameInvalidError => "UsernameInvalidError"
  | UsernameNotOccupiedError => "UsernameNotOccupiedError"
  | OtherError name => name
  end.

(** An exception instance: its class and [str(e)]. *)
Record exn : Type := { exc_type : exc_class; exc_str : string }.

Inductive outcome (A : Type) : Type :=
| Ret (a : A)
| Raise (e : exn).
Arguments Ret {A} a.
Arguments Raise {A} e.

Section Adapters.

(** The state of everything outside the program: the remote service and
    the session. *)
Context {W : Type}.

(** A computation that may change the world and either returns or
    raises. *)
Definition M (A : Type) : Type := W -> outcome A * W.

Definition ret {A} (a : A) : M A := fun w => (Ret a, w).

Definition raise {A} (e : exn) : M A := fun w => (Raise e, w).

Definition bind {A B} (c : M A) (k : A -> M B) : M B :=
  fun w =>
    match c w with
    | (Ret a, w') => k a w'
    | (Raise e, w') => (Raise e, w')
    end.

(** [try: c  except Exception as e: h e] *)
Definition try_except {A} (c : M A) (h : exn -> M A) : M A :=
  fun w =>
    match c w with
    | (Ret a, w') => (Ret a, w')
    | (Raise e, w') => h e w'
    end.

Notation "'let*' x ':=' c 'in' k" := (bind c (fun x => k))
  (at level 10, x pattern, c at level 100, k at level 200).

(** [await client(request)] for the three requests the program sends. *)
Record TelegramClient : Type := {
  CheckChatInviteRequest : string -> M InviteResponse;
  ResolveUsernameRequest : string -> M ResolvedPeer;
  GetFullChannelRequest : Entity -> M (option messages_ChatFull);
}.

(** [str(UsernameNotOccupiedError(request=None))], fixed by Telethon. *)
Variable not_occupied_text : string.

(** ** Resolution adapters *)

Definition check_invite (client : TelegramClient) (code : string) : M CheckResult :=
  try_except
    (let* res := CheckChatInviteRequest client code in
     let requires_approval : option bool := None in
     let title : option string := None in
     let member_count : option Z := None in
     let verified : option bool := None in
     let username : option string := None in
     let kind := "unknown" in
     let visibility := "private" in
     let extra : option string := None in
     let '(requires_approval, title, member_count, verified, username, kind, visibility) :=
       match res with
       | ChatInvite request_needed res_title participants_count res_verified
           res_channel res_megagroup =>
           (Some (truthy_obool request_needed),
            Some res_title,
            participants_count,
            Some (truthy_obool res_verified),
            username,
            (if truthy_obool res_channel && truthy_obool res_megagroup
             then "supergroup"
             else if truthy_obool res_channel then "channel" else "group"),
            visibility)
       | ChatInviteAlready entity =>
           let '(kind, visibility, verified) := classify_chat entity in
           (requires_approval, title, None, verified,
            getattr_username entity None, kind, visibility)
       | OtherInvite =>
           (requires_approval, title, member_count, verified, username,
            kind, visibility)
       end in
     ret {| input_value := code;
            status := "valid";
            kind := kind;
            visibility := visibility;
            verified := verified;
            requires_approval := requires_approval;
            member_count := member_count;
            title := title;
            username := username;
            extra := extra |})
    (fun e =>
       ret {| input_value := code;
              status := "invalid: " +:+ type_name (exc_type e);
              kind := "unknown";
              visibility := "unknown";
              verified := None;
              requires_approval := None;
              member_count := None;
              title := None;
              username := None;
              extra := Some (exc_str e) |}).

(** [except (UsernameInvalidError, UsernameNotOccupiedError)] *)
Definition is_username_fault (c : exc_class) : bool :=
  match c with
  | UsernameInvalidError | UsernameNotOccupiedError => true
  | OtherError _ => false
  end.

Definition check_username (client : TelegramClient) (uname : string) : M CheckResult :=
  try_except
    (let* resolved := ResolveUsernameRequest client uname in
     let entity : option Entity :=
       match chats resolved with
       | c :: _ => Some c
       | [] =>
           match users resolved with
           | u :: _ => Some u
           | [] => None
           end
       end in
     match entity with
     | None =>
         raise {| exc_type := UsernameNotOccupiedError;
                  exc_str := not_occupied_text |}
     | Some entity =>
         let '(kind, visibility, verified) := classify_chat entity in
         let requires_approval : option bool := None in
         let member_count : option Z := None in
         let* (member_count, requires_approval) :=
           (if is_Channel entity then
              try_except
                (let* full := GetFullChannelRequest client entity in
                 match full with
                 | Some {| full_chat := Some fc |} =>
                     let member_count := full_participants_count fc in
                     let join_requests := requests_pending fc in
                     let requires_approval :=
                       match join_requests with
                       | Some n => if 0 <? n then Some true else None
                       | None => None
                       end in
                     ret (member_count, requires_approval)
                 | _ => ret (member_count, requires_approval)
                 end)
                (fun _ => ret (member_count, requires_approval))
            else ret (member_count, requires_approval)) in
         ret {| input_value := uname;
                status := "resolved";
                kind := kind;
                visibility := visibility;
                verified := verified;
                requires_approval := requires_approval;
                member_count := member_count;
                title := getattr_title entity;
                username := getattr_username entity (Some uname);
                extra := None |}
     end)
    (fun e =>
       if is_username_fault (exc_type e) then
         ret {| input_value := uname;
                status := "invalid_username: " +:+ type_name (exc_type e);
                kind := "unknown";
                visibility := "unknown";
                verified := None;
                requires_approval := None;
                member_count := None;
                title := None;
                username := None;
                extra := None |}
       else
         ret {| input_value := uname;
                status := "error: " +:+ type_name (exc_type e);
                kind := "unknown";
                visibility := "unknown";
                verified := None;
                requires_approval := None;
                member_count := None;
                title := None;
                username := None;
                extra := Some (exc_str e) |}).

End Adapters.

(** ** Reason extraction *)

Definition mapping : list (string * string) :=
  [ ("invitehashexpired", "invite expired");
    ("invitehashinvalid", "invalid invite");
    ("invitehashempty", "invalid invite");
    ("usernamenotoccupied", "username not found");
    ("usernameinvalid", "invalid username");
    ("channelprivate", "private chat");
    ("chatadminrequired", "admin rights required");
    ("floodwait", "rate limit, try later");
    ("authkeypermanentlyinvalid", "invalid session, sign in again") ].

(** The [for needle, reason in mapping] loop with its early [return]. *)
Fixpoint scan_mapping (text : string) (table : list (string * string)) : string :=
  match table with
  | (needle, reason) :: rest =>
      if contains needle text then reason else scan_mapping text rest
  | [] => "error"
  end.

Definition _english_reason (status : string) (extra : option string) : string :=
  let text := lower (status +:+ " " +:+ or_empty extra) in
  scan_mapping text mapping.

(** ** Batch driver *)

(** *** Reading the input table

    The file is seen through the [csv] module: [rows] is what [csv.reader]
    yields for it, one list of cells per line, the empty list for a blank
    line. *)

(** [reader.fieldnames or []] of a [csv.DictReader]: the first row. *)
Definition dict_fieldnames (rows : list (list string)) : list string :=
  match rows with
  | header :: _ => header
  | [] => []
  end.

(** The dictionary [csv.DictReader] builds for one row: the cells zipped
    with the field names, later duplicates overwriting earlier ones, then
    [None] for every field name beyond the row's length. Surplus cells go
    under the key [None], which no lookup by name reads. *)
Definition dict_row (fieldnames row : list string) : gmap string (option string) :=
  let d := foldl (fun d kv => <[kv.1 := Some kv.2]> d) ∅ (zip fieldnames row) in
  foldl (fun d key => <[key := None]> d) d (drop (length row) fieldnames).

(** [row.get('input')] *)
Definition dict_get (d : gmap string (option string)) (key : string) : option string :=
  match d !! key with
  | Some v => v
  | None => None
  end.

(** [x in fieldnames] *)
Definition in_list (x : string) (l : list string) : bool :=
  existsb (String.eqb x) l.

(** Body of [for row in reader] over the [DictReader], which passes over
    blank lines. *)
Definition dict_loop_body (fieldnames : list string) (values : list string)
    (row : list string) : list string :=
  match row with
  | [] => values
  | _ :: _ =>
      let value := strip (or_empty (dict_get (dict_row fieldnames row) "input")) in
      if truthy_str value then values ++ [value] else values
  end.

(** Body of [for row in csv.reader(f)]. *)
Definition plain_loop_body (values : list string) (row : list string) : list string :=
  match row with
  | [] => values
  | cell :: _ =>
      let value := strip (or_empty (Some cell)) in
      if truthy_str value && negb (String.eqb (lower value) "input")
      then values ++ [value] else values
  end.

Definition read_values (rows : list (list string)) : list string :=
  let fieldnames := dict_fieldnames rows in
  if in_list "input" fieldnames
  then foldl (dict_loop_body fieldnames) [] (tail rows)
  else foldl plain_loop_body [] rows.

(** *** The loop over the values *)

Record loop_state : Type := {
  results : list CheckResult;
  processed : Z;
  errors : Z;
}.

Record summary : Type := {
  sum_processed : Z;
  sum_ok : Z;
  sum_unknown : Z;
  sum_errors : Z;
  sum_invalid : Z;
}.

(** [res.input_value = value] *)
Definition set_input_value (res : CheckResult) (value : string) : CheckResult :=
  {| input_value := value;
     status := status res;
     kind := kind res;
     visibility := visibility res;
     verified := verified res;
     requires_approval := requires_approval res;
     member_count := member_count res;
     title := title res;
     username := username res;
     extra := extra res |}.

Definition unrecognized (value : string) : CheckResult :=
  {| input_value := value;
     status := "unrecognized";
     kind := "unknown";
     visibility := "unknown";
     verified := None;
     requires_approval := None;
     member_count := None;
     title := None;
     username := None;
     extra := None |}.

(** [r.status in ("valid", "resolved")] *)
Definition is_ok (r : CheckResult) : bool :=
  String.eqb (status r) "valid" || String.eqb (status r) "resolved".

(** [r.status == 'unrecognized'] *)
Definition is_unrecognized (r : CheckResult) : bool :=
  String.eqb (status r) "unrecognized".

(** [sum(1 for r in results if p(r))] *)
Definition count (p : CheckResult -> bool) (rs : list CheckResult) : Z :=
  Z.of_nat (length (List.filter p rs)).

Definition summarise (st : loop_state) : summary :=
  let ok := count is_ok (results st) in
  let unrec := count is_unrecognized (results st) in
  let bad := processed st - ok - unrec in
  {| sum_processed := processed st;
     sum_ok := ok;
     sum_unknown := unrec;
     sum_errors := errors st;
     sum_invalid := bad |}.

Section Driver.

Context {W : Type}.

Notation "'let*' x ':=' c 'in' k" := (bind c (fun x => k))
  (at level 10, x pattern, c at level 100, k at level 200).

(** The two adapters as the loop calls them, already applied to the
    client. *)
Variable invite_adapter username_adapter : string -> M (W := W) CheckResult.

(** One iteration of [for value in values]: the [try] body up to the
    counter update, and the [except Exception] branch. [type_ == 'invite'
    and data] holds only for a [data] that is a non-empty string. *)
Definition loop_body (st : loop_state) (value : string) : M (W := W) loop_state :=
  let '(type_, data) := parse_input value in
  try_except
    (let* res :=
       (if String.eqb type_ "invite" && truthy_ostr data then
          let* res := invite_adapter (or_empty data) in
          ret (set_input_value res value)
        else if String.eqb type_ "username" && truthy_ostr data then
          let* res := username_adapter (or_empty data) in
          ret (set_input_value res value)
        else ret (unrecognized value)) in
     ret {| results := results st ++ [res];
            processed := processed st + 1;
            errors := errors st |})
    (fun e =>
       ret {| results := results st;
              processed := processed st;
              errors := errors st + 1 |}).

Fixpoint loop (st : loop_state) (values : list string) : M (W := W) loop_state :=
  match values with
  | [] => ret st
  | value :: rest =>
      let* st' := loop_body st value in
      loop st' rest
  end.

Definition initial : loop_state :=
  {| results := []; processed := 0; errors := 0 |}.

Definition process (values : list string) : M (W := W) (list CheckResult * summary) :=
  let* st := loop initial values in
  ret (results st, summarise st).

End Driver.

(** [run] from the opened session on: read the values, check each, tally.
    The session set-up before and the CSV export after are left out. *)
Definition run {W} (not_occupied_text : string) (client : TelegramClient (W := W))
    (rows : list (list string)) : M (W := W) (list CheckResult * summary) :=
  process (check_invite client) (check_username not_occupied_text client)
    (read_values rows).

(** ** Vocabulary of the statements *)

(** A username is present when the attribute holds a non-empty string. *)
Definition has_username (u : option string) : Prop :=
  exists s, u = Some s /\ s <> "".

(** The record every fault branch returns: nothing known but the status
    and, possibly, the diagnostic text. *)
Definition fault_result (input status : string) (extra : option string) : CheckResult :=
  {| input_value := input;
     status := status;
     kind := "unknown";
     visibility := "unknown";
     verified := None;
     requires_approval := None;
     member_count := None;
     title := None;
     username := None;
     extra := extra |}.


(** The number of items of a batch that ended in the driver's error
    branch, given each item's verdict. *)
Definition failures (verdicts : list (option CheckResult)) : Z :=
  Z.of_nat (length (List.filter (fun o => negb (bool_decide (is_Some o))) verdicts)).

(** The entity the username adapter selects from a response. *)
Definition selected (resolved : ResolvedPeer) : option Entity :=
  match chats resolved with
  | c :: _ => Some c
  | [] => head (users resolved)
  end.

(** What the secondary lookup contributes for a selected entity: the
    member count and the approval flag. *)
Definition secondary {W} (client : TelegramClient (W := W)) (entity : Entity) (w : W)
    : option Z * option bool * W :=
  if is_Channel entity then
    match GetFullChannelRequest client entity w with
    | (Ret (Some {| full_chat := Some fc |}), w') =>
        (full_participants_count fc,
         match requests_pending fc with
         | Some n => if 0 <? n then Some true else None
         | None => None
         end, w')
    | (_, w') => (None, None, w')
    end
  else (None, None, w).

(** A collaborator without state that gives the same three answers to
    every request. *)
Definition scripted_client (invite : outcome InviteResponse)
    (resolved : outcome ResolvedPeer) (full : outcome (option messages_ChatFull))
    : TelegramClient (W := unit) :=
  {| CheckChatInviteRequest := fun _ w => (invite, w);
     ResolveUsernameRequest := fun _ w => (resolved, w);
     GetFullChannelRequest := fun _ w => (full, w) |}.

(** The loop state after one item, given the item's verdict: its result,
    or nothing when the driver's error branch ran. *)
Definition record_verdict (st : loop_state) (o : option CheckResult) : loop_state :=
  match o with
  | Some res =>
      {| results := results st ++ [res];
         processed := processed st + 1;
         errors := errors st |}
  | None =>
      {| results := results st;
         processed := processed st;
         errors := errors st + 1 |}
  end.

(** An adapter that returns on every input, in every world. *)
Definition never_raises {W A} (f : string -> M (W := W) A) : Prop :=
  forall s w, exists a w', f s w = (Ret a, w').

(** [needle] occurs somewhere in [text]. *)
Definition occurs_in (needle text : string) : Prop :=
  exists pre post, text = pre +:+ needle +:+ post.

(** The cell under the last column called [name] among the columns the row
    reaches. *)
Fixpoint last_named (name : string) (fieldnames row : list string) : option string :=
  match fieldnames, row with
  | f :: fs, c :: cs =>
      match last_named name fs cs with
      | Some x => Some x
      | None => if String.eqb f name then Some c else None
      end
  | _, _ => None
  end.

(** The text read for the column [input] of a row: empty when a column of
    that name lies beyond the row's end, else the cell under the last such
    column, else empty. *)
Definition input_cell (fieldnames row : list string) : string :=
  if in_list "input" (drop (length row) fieldnames) then ""
  else match last_named "input" fieldnames row with
       | Some c => c
       | None => ""
       end.

(** A line of the table with at least one cell. *)
Definition nonblank (row : list string) : bool :=
  match row with [] => false | _ :: _ => true end.

(** The first cell of a row. *)
Definition first_cell (row : list string) : string :=
  match row with c :: _ => c | [] => "" end.

(** *** What a pattern matches

    [matches ic r w g g'] reads: the pattern [r] matches exactly the text
    [w], turning the groups [g] into [g']. *)
Inductive matches (ic : bool) : regex -> list ascii -> groups -> groups -> Prop :=
| matches_chr p c g :
    chr_ok ic p c = true -> matches ic (Chr p) [c] g g
| matches_cls rs lo hi w g :
    Forall (fun c => cls_ok ic rs c = true) w ->
    (lo <= length w)%nat ->
    (forall n, hi = Some n -> (length w <= n)%nat) ->
    matches ic (Cls rs lo hi) w g g
| matches_eps g :
    matches ic Eps [] g g
| matches_seq r1 r2 w1 w2 g g1 g2 :
    matches ic r1 w1 g g1 -> matches ic r2 w2 g1 g2 ->
    matches ic (Seq r1 r2) (w1 ++ w2) g g2
| matches_alt_l r1 r2 w g g' :
    matches ic r1 w g g' -> matches ic (Alt r1 r2) w g g'
| matches_alt_r r1 r2 w g g' :
    matches ic r2 w g g' -> matches ic (Alt r1 r2) w g g'
| matches_opt_some r w g g' :
    matches ic r w g g' -> matches ic (Opt r) w g g'
| matches_opt_none r g :
    matches ic (Opt r) [] g g
| matches_grp i r w g g' :
    matches ic r w g g' -> matches ic (Grp i r) w g (<[i := str w]> g').

(** Every character. *)
Definition all_ascii : list ascii := map ascii_of_nat (seq 0 256).

(** No character a pattern asks for is white space. *)
Fixpoint spaceless (ic : bool) (r : regex) : bool :=
  match r with
  | Chr p => forallb (fun c => negb (is_space c && chr_ok ic p c)) all_ascii
  | Cls rs _ _ => forallb (fun c => negb (is_space c && cls_ok ic rs c)) all_ascii
  | Eps => true
  | Seq r1 r2 | Alt r1 r2 => spaceless ic r1 && spaceless ic r2
  | Opt r1 | Grp _ r1 => spaceless ic r1
  end.

(** A pattern without capturing groups. *)
Fixpoint groupless (r : regex) : bool :=
  match r with
  | Chr _ | Cls _ _ _ | Eps => true
  | Seq r1 r2 | Alt r1 r2 => groupless r1 && groupless r2
  | Opt r1 => groupless r1
  | Grp _ _ => false
  end.

(** [pattern.search(s)] finds a match. *)
Definition pattern_matches (r : regex) (s : string) : bool :=
  match search IGNORECASE r s with Some _ => true | None => false end.

(** A character of [[A-Za-z0-9_]]. *)
Definition word_char (c : ascii) : bool := in_ranges username_class c.

(** A character of [[A-Za-z0-9_-]]. *)
Definition code_char (c : ascii) : bool := in_ranges invite_class c.

(** ** Result formatter *)

From Stdlib Require DecimalString DecimalZ DecimalPos.

(** [str(n)] for an [int]: decimal digits, with a minus sign below zero. *)
Definition py_str_int (n : Z) : string :=
  DecimalString.NilZero.string_of_int (Z.to_int n).

(** [str(b)] for a [bool]. *)
Definition py_str_bool (b : bool) : string :=
  if b then "True" else "False".

(** The values [normalize_output] is called with. *)
Inductive pyvalue : Type :=
| VStr (s : string)
| VInt (n : Z)
| VBool (b : bool).

(** [str(value)] *)
Definition py_str (v : pyvalue) : string :=
  match v with
  | VStr s => s
  | VInt n => py_str_int n
  | VBool b => py_str_bool b
  end.

Definition normalize_output (value : option pyvalue) : string :=
  match value with
  | None => ""
  | Some v => py_str v
  end.

(** [d.get(key, default)] on a dictionary of strings. *)
Definition dict_get_default (d : gmap string string) (key default : string) : string :=
  match d !! key with
  | Some v => v
  | None => default
  end.

Definition _english_kind (kind : string) : string :=
  dict_get_default
    (list_to_map [("supergroup", "Supergroup"); ("channel", "Channel");
                  ("group", "Group"); ("user", "User")])
    kind "Unknown".

Definition _english_visibility (visibility : string) : string :=
  dict_get_default
    (list_to_map [("public", "Public"); ("private", "Private")])
    visibility "Unknown".

(** [sep.join(parts)] *)
Fixpoint join (sep : string) (parts : list string) : string :=
  match parts with
  | [] => ""
  | [p] => p
  | p :: rest => p +:+ sep +:+ join sep rest
  end.

(** ['Yes' if b else 'No'] *)
Definition yes_no (b : bool) : string := if b then "Yes" else "No".

(** The list [parts] of [_format_compact_en] when it is joined. *)
Definition compact_parts (res : CheckResult) : list string :=
  let parts : list string := [] in
  let parts := parts ++ ["type: " +:+ _english_kind (kind res)] in
  let parts := parts ++ ["visibility: " +:+ _english_visibility (visibility res)] in
  let parts :=
    match member_count res with
    | Some n => parts ++ ["members: " +:+ py_str_int n]
    | None => parts
    end in
  let parts :=
    match requires_approval res with
    | Some b => parts ++ ["approval: " +:+ yes_no b]
    | None => parts
    end in
  let parts :=
    match verified res with
    | Some b => parts ++ ["verified: " +:+ yes_no b]
    | None => parts
    end in
  let parts :=
    if truthy_ostr (username res)
    then parts ++ ["username: @" +:+ or_empty (username res)]
    else parts in
  parts.

Definition _format_compact_en (res : CheckResult) : string :=
  join " | " (compact_parts res).

(** The list [tokens] of [_format_minimal_en] when it is joined. *)
Definition minimal_tokens (res : CheckResult) : list string :=
  let tokens : list string := [] in
  let tokens := if truthy_obool (verified res) then tokens ++ ["+verified"] else tokens in
  let tokens :=
    if truthy_obool (requires_approval res) then tokens ++ ["+approval"] else tokens in
  let tokens :=
    if truthy_ostr (username res)
    then tokens ++ ["+@" +:+ or_empty (username res)]
    else tokens in
  let tokens :=
    match member_count res with
    | Some n => tokens ++ ["m=" +:+ py_str_int n]
    | None => tokens
    end in
  tokens.

Definition _format_minimal_en (res : CheckResult) : string :=
  let base :=
    _english_kind (kind res) +:+ " " +:+ _english_visibility (visibility res) in
  let tokens := minimal_tokens res in
  base +:+ match tokens with
           | [] => ""
           | _ :: _ => " " +:+ join " " tokens
           end.

(** ** Tabular export *)

Definition headers : list string :=
  ["input"; "kind"; "visibility"; "member_count"; "verified"; "username";
   "requires_approval"; "title"].

(** [os.getenv("CSV_ONLY_VALID", "1") != "0"], given the variable's value
    if it is set. *)
Definition only_valid (CSV_ONLY_VALID : option string) : bool :=
  negb (String.eqb (match CSV_ONLY_VALID with Some v => v | None => "1" end) "0").

(** The cells written for one result. *)
Definition export_row (r : CheckResult) : list string :=
  [ input_value r;
    kind r;
    visibility r;
    normalize_output (VInt <$> member_count r);
    normalize_output (VBool <$> verified r);
    normalize_output (VStr <$> username r);
    normalize_output (VBool <$> requires_approval r);
    normalize_output (VStr <$> title r) ].

(** The rows handed to [csv.writer] when [output_path] is set: the header,
    then one row per kept result. *)
Definition export_table (CSV_ONLY_VALID : option string) (results : list CheckResult)
    : list (list string) :=
  let only_valid := only_valid CSV_ONLY_VALID in
  let rows := List.filter (fun r => negb only_valid || is_ok r) results in
  headers :: map export_row rows.

(** ** Vocabulary of the further properties *)

(** The length of the run a greedy class repetition consumes when nothing
    after it fails: the leading characters in the class, at most [hi]. *)
Fixpoint run_length (ok : ascii -> bool) (hi : option nat) (s : list ascii) : nat :=
  match s with
  | c :: s' => if ok c && room hi then S (run_length ok (less hi) s') else O
  | [] => O
  end.

(** What every match of the invite pattern contains: a plus sign, or a
    [t] right before a slash, or a [g] right before a colon, letters in
    either case. *)
Definition invite_mark (l : list ascii) : bool :=
  find_sub (chars "+") l ||
  find_sub (chars "t/") (map fold_lower l) ||
  find_sub (chars "g:") (map fold_lower l).

(** Equal up to the case of the letters A-Z. *)
Definition same_case (a b : ascii) : Prop := fold_lower a = fold_lower b.

Definition same_case_str (s t : string) : Prop :=
  Forall2 same_case (chars s) (chars t).

Definition same_case_groups (g1 g2 : groups) : Prop :=
  forall i, option_Forall2 same_case_str (g1 !! i) (g2 !! i).

(** The first [n] characters of a string. *)
Definition first_chars (n : nat) (s : string) : string := str (take n (chars s)).

(** Nothing is known about the chat. *)
Definition blank (r : CheckResult) : Prop :=
  kind r = "unknown" /\ visibility r = "unknown" /\ verified r = None /\
  requires_approval r = None /\ member_count r = None /\ title r = None /\
  username r = None.

(** How the status of a result goes with the kind its input parses to:
    valid or an "invalid: " fault for an invite, resolved or an
    "invalid_username: " or "error: " fault for a username, unrecognized
    for the rest, with nothing known about the chat in every case but
    valid and resolved. *)
Definition status_fits (r : CheckResult) : Prop :=
  let k := (parse_input (input_value r)).1 in
  (k = "invite" /\ status r = "valid") \/
  (k = "username" /\ status r = "resolved") \/
  (blank r /\
   ((k = "invite" /\ exists name, status r = "invalid: " +:+ name) \/
    (k = "username" /\
     exists name, status r = "invalid_username: " +:+ name \/
                  status r = "error: " +:+ name) \/
    (k = "unknown" /\ status r = "unrecognized" /\ extra r = None))).

(** *** The requests a batch sends *)

Inductive request : Type :=
| ReqCheckChatInvite (code : string)
| ReqResolveUsername (uname : string)
| ReqGetFullChannel (entity : Entity).

(** A collaborator with a log: it answers like [client] and writes every
    request it receives at the end of the log. *)
Definition logged {W} (client : TelegramClient (W := W))
    : TelegramClient (W := W * list request) :=
  {| CheckChatInviteRequest := fun code s =>
       let (o, w') := CheckChatInviteRequest client code s.1 in
       (o, (w', s.2 ++ [ReqCheckChatInvite code]));
     ResolveUsernameRequest := fun uname s =>
       let (o, w') := ResolveUsernameRequest client uname s.1 in
       (o, (w', s.2 ++ [ReqResolveUsername uname]));
     GetFullChannelRequest := fun entity s =>
       let (o, w') := GetFullChannelRequest client entity s.1 in
       (o, (w', s.2 ++ [ReqGetFullChannel entity])) |}.

Definition is_invite_request (q : request) : bool :=
  match q with ReqCheckChatInvite _ => true | _ => false end.

Definition is_resolve_request (q : request) : bool :=
  match q with ReqResolveUsername _ => true | _ => false end.

Definition is_full_request (q : request) : bool :=
  match q with ReqGetFullChannel _ => true | _ => false end.

(** The value parses to the given kind. *)
Definition parses_as (k : string) (value : string) : bool :=
  String.eqb (parse_input value).1 k.

(** The requests one value may cost: the invite check with the parsed
    code for an invite; the resolution of the parsed handle, followed or
    not by the full-channel lookup of a Channel, for a username; none
    otherwise. *)
Definition fair_requests (value : string) (reqs : list request) : Prop :=
  match parse_input value with
  | (k, Some p) =>
      (k = "invite" /\ reqs = [ReqCheckChatInvite p]) \/
      (k = "username" /\
       (reqs = [ReqResolveUsername p] \/
        exists entity, is_Channel entity = true /\
                       reqs = [ReqResolveUsername p; ReqGetFullChannel entity]))
  | (_, None) => reqs = []
  end.

(** ** The JSON line of a result

    [json.dumps] with its defaults, on a dictionary whose values are
    strings, integers, booleans or [None]. *)

Definition quote : ascii := ascii_of_nat 34.
Definition backslash : ascii := ascii_of_nat 92.

(** One lower-case hexadecimal digit. *)
Definition hex_digit (n : N) : ascii :=
  if (n <? 10)%N then ascii_of_N (48 + n) else ascii_of_N (87 + n).

(** The escape of one character inside a JSON string: the two-character
    escapes of the quote, the backslash and five control characters, the
    character itself from the space to the tilde, and a [\u00xx] escape
    for everything else. *)
Definition json_escape (c : ascii) : list ascii :=
  if (code c =? 34)%N then [backslash; quote]
  else if (code c =? 92)%N then [backslash; backslash]
  else if (code c =? 10)%N then [backslash; "n"%char]
  else if (code c =? 13)%N then [backslash; "r"%char]
  else if (code c =? 9)%N then [backslash; "t"%char]
  else if (code c =? 8)%N then [backslash; "b"%char]
  else if (code c =? 12)%N then [backslash; "f"%char]
  else if between 32 126 c then [c]
  else [backslash; "u"%char; "0"%char; "0"%char;
        hex_digit (code c / 16); hex_digit (code c mod 16)].

Definition json_string (s : string) : string :=
  str (quote :: concat (map json_escape (chars s)) ++ [quote]).

Definition json_value (v : option pyvalue) : string :=
  match v with
  | None => "null"
  | Some (VStr s) => json_string s
  | Some (VInt n) => py_str_int n
  | Some (VBool b) => if b then "true" else "false"
  end.

Definition json_dumps (items : list (string * option pyvalue)) : string :=
  "{" +:+ join ", " (map (fun kv => json_string kv.1 +:+ ": " +:+ json_value kv.2) items)
      +:+ "}".

(** The line printed for a result when [OUTPUT_MODE] is [jsonl]. *)
Definition json_record (res : CheckResult) : string :=
  json_dumps
    [ ("input", Some (VStr (input_value res)));
      ("status", Some (VStr (status res)));
      ("kind", Some (VStr (kind res)));
      ("visibility", Some (VStr (visibility res)));
      ("verified", VBool <$> verified res);
      ("requires_approval", VBool <$> requires_approval res);
      ("member_count", VInt <$> member_count res);
      ("title", VStr <$> title res);
      ("username", VStr <$> username res);
      ("extra", VStr <$> extra res) ].

(** A printable ASCII character: from the space to the tilde. *)
Definition printable (c : ascii) : bool := between 32 126 c.

(** ** The entity classifier *)

Lemma truthy_ostr_has_username (u : option string) :
  truthy_ostr u = true <-> has_username u.
Proof.
  unfold has_username. destruct u as [[|c s]|]; simpl; split.
  - discriminate.
  - intros (s & [= <-] & Hs). done.
  - intros _. eexists. split; [reflexivity|discriminate].
  - done.
  - discriminate.
  - intros (s & Hs & _). discriminate.
Qed.

Lemma truthy_obool_true (o : option bool) :
  truthy_obool o = true <-> o = Some true.
Proof. destruct o as [[]|]; simpl; split; congruence. Qed.

(** A two-way choice read as two equivalences. *)
Lemma choice_iff {A} (b : bool) (P : Prop) (x y : A) :
  x <> y -> (b = true <-> P) ->
  ((if b then x else y) = x <-> P) /\ ((if b then x else y) = y <-> ~ P).
Proof.
  intros Hxy [H1 H2]. destruct b; (split; split).
  - intros _. by apply H1.
  - done.
  - intros H. contradiction.
  - intros HnP. exfalso. by apply HnP, H1.
  - intros H. symmetry in H. contradiction.
  - intros HP. apply H2 in HP. discriminate.
  - intros _ HP. apply H2 in HP. discriminate.
  - done.
Qed.

(** C3. [classify_chat] is defined on every entity: a Channel is a
    supergroup exactly when [megagroup] is true and a channel otherwise,
    public exactly when a username is present and private otherwise, with
    [verified] a boolean that is true only for an attribute holding true; a
    Chat is a private group; a User is public exactly when a username is
    present; any other shape gives (unknown, unknown, absent). *)
Theorem classify_chat_total (entity : Entity) :
  exists (k v : string) (b : option bool),
    classify_chat entity = (k, v, b) /\
    match entity with
    | Channel megagroup uname verif _ =>
        (k = "supergroup" <-> megagroup = Some true) /\
        (k = "channel" <-> megagroup <> Some true) /\
        (v = "public" <-> has_username uname) /\
        (v = "private" <-> ~ has_username uname) /\
        (b = Some true <-> verif = Some true) /\
        (b = Some false <-> verif <> Some true)
    | Chat verif _ =>
        k = "group" /\ v = "private" /\
        (b = Some true <-> verif = Some true) /\
        (b = Some false <-> verif <> Some true)
    | User uname verif =>
        k = "user" /\
        (v = "public" <-> has_username uname) /\
        (v = "private" <-> ~ has_username uname) /\
        (b = Some true <-> verif = Some true) /\
        (b = Some false <-> verif <> Some true)
    | OtherEntity _ _ => k = "unknown" /\ v = "unknown" /\ b = None
    end.
Proof.
  assert (Hkind : forall mg : option bool,
             ((if truthy_obool mg then "supergroup" else "channel") = "supergroup"
              <-> mg = Some true) /\
             ((if truthy_obool mg then "supergroup" else "channel") = "channel"
              <-> mg <> Some true)).
  { intros mg. apply choice_iff; [discriminate|apply truthy_obool_true]. }
  assert (Hvis : forall u : option string,
             ((if truthy_ostr u then "public" else "private") = "public"
              <-> has_username u) /\
             ((if truthy_ostr u then "public" else "private") = "private"
              <-> ~ has_username u)).
  { intros u. apply choice_iff; [discriminate|apply truthy_ostr_has_username]. }
  assert (Hver : forall o : option bool,
             (Some (truthy_obool o) = Some true <-> o = Some true) /\
             (Some (truthy_obool o) = Some false <-> o <> Some true)).
  { intros [[]|]; simpl; repeat split; congruence. }
  destruct entity as [mg u vf t|vf t|u vf|u t]; simpl;
    do 3 eexists; (split; [reflexivity|]).
  - destruct (Hkind mg), (Hvis u), (Hver vf). done.
  - destruct (Hver vf). done.
  - destruct (Hvis u), (Hver vf). done.
  - done.
Qed.

(** ** The resolution adapters *)

Section AdapterFacts.

Context {W : Type}.
Variable not_occupied_text : string.
Variable client : TelegramClient (W := W).

Lemma check_invite_unfold (code : string) (w : W) :
  check_invite client code w =
  match CheckChatInviteRequest client code w with
  | (Ret (ChatInvite rn t pc vf ch mg), w') =>
      (Ret {| input_value := code; status := "valid";
              kind := if truthy_obool ch && truthy_obool mg then "supergroup"
                      else if truthy_obool ch then "channel" else "group";
              visibility := "private";
              verified := Some (truthy_obool vf);
              requires_approval := Some (truthy_obool rn);
              member_count := pc; title := Some t; username := None;
              extra := None |}, w')
  | (Ret (ChatInviteAlready entity), w') =>
      (Ret {| input_value := code; status := "valid";
              kind := (classify_chat entity).1.1;
              visibility := (classify_chat entity).1.2;
              verified := (classify_chat entity).2;
              requires_approval := None;
              member_count := None; title := None;
              username := getattr_username entity None;
              extra := None |}, w')
  | (Ret OtherInvite, w') =>
      (Ret {| input_value := code; status := "valid";
              kind := "unknown"; visibility := "private";
              verified := None; requires_approval := None;
              member_count := None; title := None; username := None;
              extra := None |}, w')
  | (Raise e, w') =>
      (Ret (fault_result code ("invalid: " +:+ type_name (exc_type e))
              (Some (exc_str e))), w')
  end.
Proof.
  unfold check_invite, try_except, bind, ret.
  destruct (CheckChatInviteRequest client code w) as [[res|e] w']; [|done].
  destruct res as [rn t pc vf ch mg|entity|]; [done| |done].
  destruct (classify_chat entity) as [[k v] b]. done.
Qed.

Lemma check_username_unfold (uname : string) (w : W) :
  check_username not_occupied_text client uname w =
  match ResolveUsernameRequest client uname w with
  | (Ret resolved, w1) =>
      match selected resolved with
      | Some entity =>
          let '(mc, ra, w2) := secondary client entity w1 in
          (Ret {| input_value := uname; status := "resolved";
                  kind := (classify_chat entity).1.1;
                  visibility := (classify_chat entity).1.2;
                  verified := (classify_chat entity).2;
                  requires_approval := ra;
                  member_count := mc;
                  title := getattr_title entity;
                  username := getattr_username entity (Some uname);
                  extra := None |}, w2)
      | None =>
          (Ret (fault_result uname "invalid_username: UsernameNotOccupiedError" None), w1)
      end
  | (Raise e, w1) =>
      (Ret (if is_username_fault (exc_type e)
            then fault_result uname ("invalid_username: " +:+ type_name (exc_type e)) None
            else fault_result uname ("error: " +:+ type_name (exc_type e))
                   (Some (exc_str e))), w1)
  end.
Proof.
  unfold check_username, try_except, bind, ret, raise, selected, secondary.
  destruct (ResolveUsernameRequest client uname w) as [[resolved|e] w1].
  - destruct resolved as [cs us]; simpl.
    destruct cs as [|entity cs]; [destruct us as [|entity us]|]; simpl; [done|..].
    all: destruct (classify_chat entity) as [[k v] b]; simpl.
    all: destruct (is_Channel entity); [|done].
    all: destruct (GetFullChannelRequest client entity w1)
           as [[[[[fc|]]|]|e] w2]; done.
  - destruct (is_username_fault (exc_type e)); done.
Qed.

End AdapterFacts.

Section AdapterClaims.

Context {W : Type}.
Variable not_occupied_text : string.
Variable client : TelegramClient (W := W).

Lemma check_invite_returns : never_raises (check_invite client).
Proof.
  intros code w. rewrite check_invite_unfold.
  destruct (CheckChatInviteRequest client code w) as [[[]|] ?]; eauto.
Qed.

Lemma check_username_returns :
  never_raises (check_username not_occupied_text client).
Proof.
  intros uname w. rewrite check_username_unfold.
  destruct (ResolveUsernameRequest client uname w) as [[resolved|e] w1]; [|eauto].
  destruct (selected resolved) as [entity|]; [|eauto].
  destruct (secondary client entity w1) as [[mc ra] w2]. eauto.
Qed.

Lemma secondary_approval (entity : Entity) (w : W) :
  (secondary client entity w).1.2 <> Some false /\
  ((secondary client entity w).1.2 = Some true <->
   exists fc n w',
     is_Channel entity = true /\
     GetFullChannelRequest client entity w = (Ret (Some {| full_chat := Some fc |}), w') /\
     requests_pending fc = Some n /\ 0 < n).
Proof.
  unfold secondary. destruct (is_Channel entity).
  2: { simpl. split; [done|]. split; [done|]. intros (?&?&?&?&_). done. }
  destruct (GetFullChannelRequest client entity w) as [[[[[fc|]]|]|e] w2]; simpl.
  2-4: split; [done|]; split; [done|]; intros (?&?&?&_&?&_); done.
  destruct (requests_pending fc) as [n|] eqn:Hn.
  2: { split; [done|]. split; [done|].
       intros (fc'&n&w'&_&[= -> ->]&Hn'&_). congruence. }
  destruct (Z.ltb_spec 0 n) as [Hpos|Hle].
  - split; [done|]. split; [|done]. intros _. exists fc, n, w2. done.
  - split; [done|]. split; [done|].
    intros (fc'&n'&w'&_&[= -> ->]&Hn'&Hpos). rewrite Hn in Hn'.
    injection Hn' as ->. lia.
Qed.

(** C1 (amended). In the invite adapter the approval flag of a preview
    response is always an explicit boolean, true exactly when the
    flag is set and false when it is unset or missing, and it is absent
    for every other outcome; in the username adapter it is true exactly
    when the selected entity is a Channel whose full-channel lookup
    returned a pending-request counter above zero, and it is never
    false. *)
Theorem requires_approval_tristate (s : string) (w : W) :
  (exists r w',
     check_invite client s w = (Ret r, w') /\
     requires_approval r =
       match (CheckChatInviteRequest client s w).1 with
       | Ret (ChatInvite request_needed _ _ _ _ _) =>
           Some (truthy_obool request_needed)
       | _ => None
       end) /\
  (exists r w',
     check_username not_occupied_text client s w = (Ret r, w') /\
     requires_approval r <> Some false /\
     (requires_approval r = Some true <->
      exists resolved w1 entity fc n w2,
        ResolveUsernameRequest client s w = (Ret resolved, w1) /\
        selected resolved = Some entity /\
        is_Channel entity = true /\
        GetFullChannelRequest client entity w1 =
          (Ret (Some {| full_chat := Some fc |}), w2) /\
        requests_pending fc = Some n /\ 0 < n)).
Proof.
  split.
  - rewrite check_invite_unfold.
    destruct (CheckChatInviteRequest client s w) as [[[]|] w']; simpl; eauto.
  - rewrite check_username_unfold.
    destruct (ResolveUsernameRequest client s w) as [[resolved|e] w1].
    + destruct (selected resolved) as [entity|] eqn:Hsel.
      * pose proof (secondary_approval entity w1) as [Hnf Htrue].
        destruct (secondary client entity w1) as [[mc ra] w2]; simpl in *.
        do 2 eexists. split; [reflexivity|]. simpl. split; [done|].
        rewrite Htrue. split.
        -- intros (fc&n&w'&?&?&?&?). exists resolved, w1, entity, fc, n, w'. done.
        -- intros (res'&w1'&ent'&fc&n&w'&[= <- <-]&Hs&?&?&?&?).
           rewrite Hsel in Hs. injection Hs as <-. exists fc, n, w'. done.
      * do 2 eexists. split; [reflexivity|]. simpl. split; [done|].
        split; [done|].
        intros (res'&w1'&ent'&fc&n&w'&[= <- <-]&Hs&_). congruence.
    + do 2 eexists. split; [reflexivity|].
      destruct (is_username_fault (exc_type e)); simpl; (split; [done|]);
        (split; [done|]); intros (?&?&?&?&?&?&?&_); done.
Qed.

(** C2 (amended). A successful invite check whose response is neither the
    preview nor the already-member variant gives status valid, kind
    unknown and visibility private, with every other field absent. *)
Theorem check_invite_other_shape (code : string) (w w' : W) :
  CheckChatInviteRequest client code w = (Ret OtherInvite, w') ->
  exists r,
    check_invite client code w = (Ret r, w') /\
    status r = "valid" /\ kind r = "unknown" /\ visibility r = "private" /\
    verified r = None /\ requires_approval r = None /\
    member_count r = None /\ title r = None /\ username r = None /\
    extra r = None.
Proof.
  intros Hres. rewrite check_invite_unfold, Hres.
  eexists. split; [reflexivity|]. simpl. done.
Qed.

(** C5. The username adapter builds its result from the first chat of the
    response when there is one, else from the first user, and reports a
    missing entity as a username-not-occupied fault; a username-invalid
    or username-not-occupied fault gives the status "invalid_username: "
    followed by the fault's class name with nothing else known and no
    diagnostic text, and any other fault gives "error: " followed by the
    class name, nothing else known, and the fault's text as diagnostic. *)
Theorem check_username_selection_and_faults (uname : string) (w : W) :
  let built_from (entity : Entity) :=
    exists r w2,
      check_username not_occupied_text client uname w = (Ret r, w2) /\
      status r = "resolved" /\
      (kind r, visibility r, verified r) = classify_chat entity /\
      title r = getattr_title entity /\
      username r = getattr_username entity (Some uname) /\
      extra r = None in
  match ResolveUsernameRequest client uname w with
  | (Ret resolved, w1) =>
      match chats resolved, users resolved with
      | c :: _, _ => built_from c
      | [], u :: _ => built_from u
      | [], [] =>
          check_username not_occupied_text client uname w =
          (Ret (fault_result uname
                  ("invalid_username: " +:+ type_name UsernameNotOccupiedError)
                  None), w1)
      end
  | (Raise e, w1) =>
      match exc_type e with
      | UsernameInvalidError | UsernameNotOccupiedError =>
          check_username not_occupied_text client uname w =
          (Ret (fault_result uname
                  ("invalid_username: " +:+ type_name (exc_type e)) None), w1)
      | OtherError _ =>
          check_username not_occupied_text client uname w =
          (Ret (fault_result uname
                  ("error: " +:+ type_name (exc_type e)) (Some (exc_str e))), w1)
      end
  end.
Proof.
  intros built_from.
  assert (Hb : forall resolved w1 entity,
             ResolveUsernameRequest client uname w = (Ret resolved, w1) ->
             selected resolved = Some entity -> built_from entity).
  { intros resolved w1 entity Hres Hsel. unfold built_from.
    rewrite check_username_unfold, Hres, Hsel.
    destruct (secondary client entity w1) as [[mc ra] w2].
    do 2 eexists. split; [reflexivity|]. simpl.
    destruct (classify_chat entity) as [[k v] b]. done. }
  destruct (ResolveUsernameRequest client uname w) as [[[cs us]|e] w1] eqn:Hres.
  - destruct cs as [|c cs]; [destruct us as [|u us]|]; simpl.
    + rewrite check_username_unfold, Hres. done.
    + by apply (Hb _ _ _ eq_refl).
    + by apply (Hb _ _ _ eq_refl).
  - rewrite check_username_unfold, Hres. destruct (exc_type e); done.
Qed.

End AdapterClaims.

(** The invite adapter on a preview without the join-request flag reports
    an explicit false, where C1 as stated asks for an absent value. *)
Lemma invite_preview_without_flag :
  let client :=
    scripted_client (Ret (ChatInvite None "Book club" (Some 12) None None None))
      (Ret {| chats := []; users := [] |}) (Ret None) in
  exists r,
    check_invite client "AAAAAAAAAAAAAAAAAA" tt = (Ret r, tt) /\
    requires_approval r = Some false /\
    requires_approval r <> None.
Proof. eexists. split; [reflexivity|]. simpl. done. Qed.

(** The invite adapter on a response of a third shape reports visibility
    private, where C2 as stated asks for unknown. *)
Lemma invite_other_shape_is_private :
  let client :=
    scripted_client (Ret OtherInvite) (Ret {| chats := []; users := [] |}) (Ret None) in
  exists r,
    check_invite client "AAAAAAAAAAAAAAAAAA" tt = (Ret r, tt) /\
    status r = "valid" /\ kind r = "unknown" /\
    visibility r = "private" /\ visibility r <> "unknown".
Proof. eexists. split; [reflexivity|]. simpl. done. Qed.

Lemma check_invite_other_shape_witness :
  exists r,
    check_invite
      (scripted_client (Ret OtherInvite) (Ret {| chats := []; users := [] |}) (Ret None))
      "AAAAAAAAAAAAAAAAAA" tt = (Ret r, tt) /\
    status r = "valid" /\ kind r = "unknown" /\ visibility r = "private" /\
    verified r = None /\ requires_approval r = None /\
    member_count r = None /\ title r = None /\ username r = None /\
    extra r = None.
Proof.
  apply (check_invite_other_shape
           (scripted_client (Ret OtherInvite) (Ret {| chats := []; users := [] |}) (Ret None))
           "AAAAAAAAAAAAAAAAAA" tt tt).
  reflexivity.
Defined.

(** ** The batch driver *)


Lemma record_verdicts_results (verdicts : list (option CheckResult)) (st : loop_state) :
  results (foldl record_verdict st verdicts) = results st ++ omap id verdicts.
Proof.
  revert st. induction verdicts as [|[r|] vs IH]; intros st; simpl.
  - by rewrite app_nil_r.
  - rewrite IH. simpl. by rewrite <- app_assoc.
  - by rewrite IH.
Qed.

Lemma omap_id_cons (o : option CheckResult) (vs : list (option CheckResult)) :
  omap id (o :: vs) = match o with Some r => r :: omap id vs | None => omap id vs end.
Proof. by destruct o. Qed.

Lemma record_verdicts_processed (verdicts : list (option CheckResult)) (st : loop_state) :
  processed (foldl record_verdict st verdicts)
  = processed st + Z.of_nat (length (omap id verdicts)).
Proof.
  revert st. induction verdicts as [|o vs IH]; intros st.
  - simpl. lia.
  - cbn [foldl]. rewrite IH, omap_id_cons.
    destruct o; cbn [length processed record_verdict]; lia.
Qed.

Lemma record_verdicts_errors (verdicts : list (option CheckResult)) (st : loop_state) :
  errors (foldl record_verdict st verdicts) = errors st + failures verdicts.
Proof.
  unfold failures. revert st.
  induction verdicts as [|[r|] vs IH]; intros st; simpl.
  - lia.
  - rewrite IH. simpl. done.
  - rewrite IH. simpl. lia.
Qed.


Section DriverFacts.

Context {W : Type}.
Variable invite_adapter username_adapter : string -> M (W := W) CheckResult.




End DriverFacts.


(** ** Strings *)

Lemma chars_append (a b : string) : chars (a +:+ b) = chars a ++ chars b.
Proof. unfold chars. induction a as [|c a IH]; simpl; [done|]. by rewrite IH. Qed.

Lemma chars_str (l : list ascii) : chars (str l) = l.
Proof. apply list_ascii_of_string_of_list_ascii. Qed.

Lemma str_chars (s : string) : str (chars s) = s.
Proof. apply string_of_list_ascii_of_string. Qed.

Lemma chars_inj (a b : string) : chars a = chars b -> a = b.
Proof. intros H. rewrite <- (str_chars a), <- (str_chars b). by rewrite H. Qed.

Lemma starts_with_spec (p l : list ascii) :
  starts_with p l = true <-> exists post, l = p ++ post.
Proof.
  revert l. induction p as [|a p IH]; intros l; simpl.
  - split; eauto.
  - destruct l as [|b l].
    + split; [done|]. intros (post & ?). done.
    + rewrite andb_true_iff, Ascii.eqb_eq, IH. split.
      * intros (-> & post & ->). eauto.
      * intros (post & [= -> ->]). eauto.
Qed.

Lemma find_sub_spec (p l : list ascii) :
  find_sub p l = true <-> exists pre post, l = pre ++ p ++ post.
Proof.
  induction l as [|b l IH]; simpl; rewrite orb_true_iff, starts_with_spec.
  - split.
    + intros [(post & H)|?]; [|done]. exists [], post. done.
    + intros (pre & post & H). left.
      destruct pre; [eauto|done].
  - rewrite IH. split.
    + intros [(post & H)|(pre & post & ->)].
      * exists [], post. done.
      * exists (b :: pre), post. done.
    + intros (pre & post & H). destruct pre as [|c pre].
      * left. eauto.
      * right. injection H as -> ->. eauto.
Qed.

Lemma contains_spec (needle text : string) :
  contains needle text = true <-> occurs_in needle text.
Proof.
  unfold contains, occurs_in. rewrite find_sub_spec. split.
  - intros (pre & post & H). exists (str pre), (str post).
    apply chars_inj. by rewrite !chars_append, !chars_str.
  - intros (pre & post & ->). exists (chars pre), (chars post).
    by rewrite !chars_append.
Qed.

(** ** Reason extraction *)

Lemma scan_mapping_first (text : string) (table : list (string * string)) :
  (exists i needle reason,
     table !! i = Some (needle, reason) /\
     occurs_in needle text /\
     (forall j n r, (j < i)%nat -> table !! j = Some (n, r) -> ~ occurs_in n text) /\
     scan_mapping text table = reason) \/
  ((forall n r, (n, r) ∈ table -> ~ occurs_in n text) /\
   scan_mapping text table = "error").
Proof.
  induction table as [|[needle reason] rest IH]; simpl.
  - right. split; [|done]. intros n r Hin. by apply elem_of_nil in Hin.
  - destruct (contains needle text) eqn:Hc.
    + left. exists 0%nat, needle, reason. split; [done|].
      split; [by apply contains_spec|]. split; [lia|done].
    + assert (Hno : ~ occurs_in needle text).
      { rewrite <- contains_spec. congruence. }
      destruct IH as [(i & n & r & Hi & Hocc & Hbefore & Hres)|[Hnone Hres]].
      * left. exists (S i), n, r. split; [done|]. split; [done|]. split; [|done].
        intros [|j] n' r' Hlt Hj; simpl in Hj.
        -- by injection Hj as -> ->.
        -- apply (Hbefore j n' r'); [lia|done].
      * right. split; [|done]. intros n r [[= -> ->]|Hin]%elem_of_cons; eauto.
Qed.

(** C8. Reason extraction lower-cases status, a space and the diagnostic
    text (nothing when absent), and answers with the reason of the first
    entry of the fixed table whose needle occurs in that text, or with
    "error" when no needle occurs. *)
Theorem english_reason_first_match (status : string) (extra : option string) :
  let text :=
    lower (status +:+ " " +:+ match extra with Some e => e | None => "" end) in
  map fst mapping =
    ["invitehashexpired"; "invitehashinvalid"; "invitehashempty";
     "usernamenotoccupied"; "usernameinvalid"; "channelprivate";
     "chatadminrequired"; "floodwait"; "authkeypermanentlyinvalid"] /\
  map snd mapping =
    ["invite expired"; "invalid invite"; "invalid invite";
     "username not found"; "invalid username"; "private chat";
     "admin rights required"; "rate limit, try later";
     "invalid session, sign in again"] /\
  ((exists i needle reason,
      mapping !! i = Some (needle, reason) /\
      occurs_in needle text /\
      (forall j n r, (j < i)%nat -> mapping !! j = Some (n, r) -> ~ occurs_in n text) /\
      _english_reason status extra = reason) \/
   ((forall n r, (n, r) ∈ mapping -> ~ occurs_in n text) /\
    _english_reason status extra = "error")).
Proof.
  intros text. split; [done|]. split; [done|].
  assert (Htext : lower (status +:+ " " +:+ or_empty extra) = text).
  { unfold text. by destruct extra as [[|c e]|]. }
  unfold _english_reason. rewrite Htext. apply scan_mapping_first.
Qed.

(** ** Reading the input table *)

Lemma foldl_restval (keys : list string) (d : gmap string (option string))
    (name : string) :
  foldl (fun d key => <[key := None]> d) d keys !! name
  = if in_list name keys then Some None else d !! name.
Proof.
  revert d. induction keys as [|k keys IH]; intros d; simpl; [done|].
  rewrite IH. destruct (in_list name keys) eqn:Hin.
  - by rewrite orb_true_r.
  - rewrite orb_false_r. destruct (String.eqb_spec name k) as [->|Hne].
    + by rewrite lookup_insert_eq.
    + by rewrite lookup_insert_ne.
Qed.

Lemma foldl_zip_lookup (fieldnames row : list string)
    (d : gmap string (option string)) (name : string) :
  foldl (fun d kv => <[kv.1 := Some kv.2]> d) d (zip fieldnames row) !! name
  = match last_named name fieldnames row with
    | Some c => Some (Some c)
    | None => d !! name
    end.
Proof.
  revert row d. induction fieldnames as [|f fs IH]; intros row d; [done|].
  destruct row as [|c cs]; [done|]. simpl. rewrite IH.
  destruct (last_named name fs cs); [done|].
  destruct (String.eqb_spec f name) as [->|Hne].
  - by rewrite lookup_insert_eq.
  - by rewrite lookup_insert_ne.
Qed.

Lemma dict_row_input (fieldnames row : list string) :
  or_empty (dict_get (dict_row fieldnames row) "input") = input_cell fieldnames row.
Proof.
  unfold dict_get, dict_row, input_cell.
  rewrite foldl_restval, foldl_zip_lookup.
  destruct (in_list "input" (drop (length row) fieldnames)); [done|].
  rewrite lookup_empty. by destruct (last_named "input" fieldnames row) as [[|? ?]|].
Qed.

Lemma dict_loop_filter (fieldnames : list string) (rows : list (list string))
    (acc : list string) :
  foldl (dict_loop_body fieldnames) acc rows
  = acc ++ List.filter truthy_str
             (map (fun row => strip (input_cell fieldnames row))
                (List.filter nonblank rows)).
Proof.
  revert acc. induction rows as [|row rows IH]; intros acc; simpl.
  - by rewrite app_nil_r.
  - rewrite IH. destruct row as [|c cs]; [done|].
    cbn [dict_loop_body nonblank map List.filter].
    rewrite dict_row_input.
    destruct (truthy_str (strip (input_cell fieldnames (c :: cs)))); [|done].
    by rewrite <- app_assoc.
Qed.

Lemma plain_loop_filter (rows : list (list string)) (acc : list string) :
  foldl plain_loop_body acc rows
  = acc ++ List.filter (fun v => truthy_str v && negb (String.eqb (lower v) "input"))
             (map (fun row => strip (first_cell row)) (List.filter nonblank rows)).
Proof.
  revert acc. induction rows as [|row rows IH]; intros acc; simpl.
  - by rewrite app_nil_r.
  - rewrite IH. destruct row as [|c cs]; [done|].
    cbn [plain_loop_body nonblank map List.filter first_cell].
    assert (Hc : or_empty (Some c) = c) by by destruct c.
    rewrite Hc.
    destruct (truthy_str (strip c) && negb (String.eqb (lower (strip c)) "input"));
      [|done].
    by rewrite <- app_assoc.
Qed.

(** C9 (amended). When the first row names a column [input], the values
    are the cells of that column in the rows after it, else the first
    cells of all rows; in both paths blank lines are passed over, each
    value is stripped of surrounding white space and dropped when nothing
    is left, and in the second path a value that lower-cases to "input"
    is dropped as well, wherever it stands; the remaining values keep
    their order. *)
Theorem read_values_filter (rows : list (list string)) :
  read_values rows =
  if in_list "input" (dict_fieldnames rows)
  then List.filter truthy_str
         (map (fun row => strip (input_cell (dict_fieldnames rows) row))
            (List.filter nonblank (tail rows)))
  else List.filter (fun v => truthy_str v && negb (String.eqb (lower v) "input"))
         (map (fun row => strip (first_cell row)) (List.filter nonblank rows)).
Proof.
  unfold read_values. destruct (in_list "input" (dict_fieldnames rows)).
  - by rewrite dict_loop_filter.
  - by rewrite plain_loop_filter.
Qed.

(** A table without a column [input] whose second row reads INPUT: the
    row is dropped, where C9 as stated keeps the first cell of every row. *)
Lemma fallback_drops_input_row :
  let rows := [["@durov"]; ["INPUT"]] in
  in_list "input" (dict_fieldnames rows) = false /\
  read_values rows = ["@durov"] /\
  read_values rows <> map first_cell rows.
Proof. vm_compute. split; [done|]. split; [done|]. discriminate. Qed.

(** ** The matcher *)

Lemma all_ascii_complete (c : ascii) : c ∈ all_ascii.
Proof.
  unfold all_ascii. rewrite <- (ascii_nat_embedding c).
  apply (list_elem_of_fmap_2 ascii_of_nat), elem_of_seq.
  pose proof (nat_ascii_bounded c). lia.
Qed.

Lemma forallb_all_ascii (P : ascii -> bool) (c : ascii) :
  forallb P all_ascii = true -> P c = true.
Proof.
  intros H. rewrite forallb_forall in H. apply H, list_elem_of_In, all_ascii_complete.
Qed.

Lemma rep_sound {R} (ok : ascii -> bool) (s : list ascii) (lo : nat) (hi : option nat)
    (k : list ascii -> option R) (res : R) :
  rep ok lo hi s k = Some res ->
  exists w s',
    s = w ++ s' /\ Forall (fun c => ok c = true) w /\ (lo <= length w)%nat /\
    (forall n, hi = Some n -> (length w <= n)%nat) /\ k s' = Some res.
Proof.
  revert lo hi. induction s as [|c s IH]; intros lo hi; simpl.
  - destruct lo; [|done]. intros Hk. exists [], []. repeat split; auto; simpl; lia.
  - assert (Hstop : match lo with O => k (c :: s) | S _ => None end = Some res ->
                    exists w s', c :: s = w ++ s' /\ Forall (fun c => ok c = true) w /\
                      (lo <= length w)%nat /\
                      (forall n, hi = Some n -> (length w <= n)%nat) /\
                      k s' = Some res).
    { destruct lo; [|done]. intros Hk. exists [], (c :: s).
      repeat split; auto; simpl; lia. }
    destruct (ok c && room hi) eqn:Hok; [|exact Hstop].
    destruct (rep ok (pred lo) (less hi) s k) as [r|] eqn:Hrep; [|exact Hstop].
    intros [= ->]. apply andb_true_iff in Hok as [Hc Hroom].
    destruct (IH _ _ Hrep) as (w & s' & -> & Hall & Hlo & Hhi & Hk).
    exists (c :: w), s'. split; [done|]. split; [by constructor|].
    split; [simpl; lia|]. split; [|done].
    intros n ->. simpl in *. destruct n as [|n]; [done|].
    specialize (Hhi n eq_refl). lia.
Qed.

Lemma rmatch_sound {R} (ic : bool) (r : regex) (s : list ascii) (g : groups)
    (k : list ascii -> groups -> option R) (res : R) :
  rmatch ic r s g k = Some res ->
  exists w s' g', s = w ++ s' /\ matches ic r w g g' /\ k s' g' = Some res.
Proof.
  revert s g k. induction r as [p|rs lo hi| |r1 IH1 r2 IH2|r1 IH1 r2 IH2|r1 IH1|i r1 IH1];
    intros s g k; simpl.
  - destruct s as [|c s]; [done|]. destruct (chr_ok ic p c) eqn:Hc; [|done].
    intros Hk. exists [c], s, g. split; [done|]. split; [by constructor|done].
  - intros (w & s' & -> & Hall & Hlo & Hhi & Hk)%rep_sound.
    exists w, s', g. split; [done|]. split; [by constructor|done].
  - intros Hk. exists [], s, g. split; [done|]. split; [constructor|done].
  - intros (w1 & s1 & g1 & -> & Hm1 & H2)%IH1.
    apply IH2 in H2 as (w2 & s2 & g2 & -> & Hm2 & Hk).
    exists (w1 ++ w2), s2, g2. split; [by rewrite app_assoc|].
    split; [by econstructor|done].
  - destruct (rmatch ic r1 s g k) as [x|] eqn:H1.
    + intros [= ->]. apply IH1 in H1 as (w & s' & g' & -> & Hm & Hk).
      exists w, s', g'. split; [done|]. split; [by apply matches_alt_l|done].
    + intros (w & s' & g' & -> & Hm & Hk)%IH2.
      exists w, s', g'. split; [done|]. split; [by apply matches_alt_r|done].
  - destruct (rmatch ic r1 s g k) as [x|] eqn:H1.
    + intros [= ->]. apply IH1 in H1 as (w & s' & g' & -> & Hm & Hk).
      exists w, s', g'. split; [done|]. split; [by apply matches_opt_some|done].
    + intros Hk. exists [], s, g. split; [done|]. split; [apply matches_opt_none|done].
  - intros (w & s' & g' & -> & Hm & Hk)%IH1.
    exists w, s', (<[i := str w]> g'). split; [done|].
    split; [by constructor|].
    rewrite length_app in Hk.
    replace (length w + length s' - length s')%nat with (length w) in Hk by lia.
    by rewrite take_app_length in Hk.
Qed.

Lemma search_from_sound (ic : bool) (r : regex) (s : list ascii) (m : groups) :
  search_from ic r s = Some m ->
  exists pre w post, s = pre ++ w ++ post /\ matches ic r w ∅ m.
Proof.
  induction s as [|c s IH]; simpl.
  - destruct (match_at ic r []) as [g|] eqn:Hat; [|done].
    intros [= ->]. apply rmatch_sound in Hat as (w & s' & g' & Hs & Hm & [= ->]).
    exists [], w, s'. done.
  - destruct (match_at ic r (c :: s)) as [g|] eqn:Hat.
    + intros [= ->]. apply rmatch_sound in Hat as (w & s' & g' & Hs & Hm & [= ->]).
      exists [], w, s'. done.
    + intros (pre & w & post & -> & Hm)%IH. exists (c :: pre), w, post. done.
Qed.

Lemma matches_groupless (ic : bool) (r : regex) (w : list ascii) (g g' : groups) :
  groupless r = true -> matches ic r w g g' -> g' = g.
Proof.
  intros Hg Hm. induction Hm; simpl in Hg; try done.
  - apply andb_true_iff in Hg as [H1 H2]. rewrite IHHm2, IHHm1; done.
  - apply andb_true_iff in Hg as [H1 H2]. auto.
  - apply andb_true_iff in Hg as [H1 H2]. auto.
  - auto.
Qed.

Lemma matches_lit (ic : bool) (s : string) (w : list ascii) (g g' : groups) :
  matches ic (lit s) w g g' ->
  g' = g /\ Forall2 (fun p c => chr_ok ic p c = true) (chars s) w.
Proof.
  unfold lit. revert w g. induction (chars s) as [|p ps IH]; intros w g Hm; simpl in Hm.
  - inversion Hm; subst. done.
  - inversion Hm as [| | |? ? w1 w2 ? g1 ? Hc Hrest| | | | |]; subst.
    inversion Hc; subst. apply IH in Hrest as [-> Hall].
    split; [done|]. by constructor.
Qed.

(** *** White space ends a match like the end of the text does *)

Lemma rep_space_cut {R} (ok : ascii -> bool) (c : ascii) (s2 : list ascii)
    (k k' : list ascii -> option R) :
  ok c = false ->
  (forall s', k (s' ++ c :: s2) = k' s') ->
  forall s1 lo hi,
    rep ok lo hi (s1 ++ c :: s2) k = rep ok lo hi s1 k'.
Proof.
  intros Hc Hk. induction s1 as [|a s1 IH]; intros lo hi; simpl.
  - rewrite Hc. simpl. destruct lo; [apply (Hk [])|done].
  - pose proof (Hk (a :: s1)) as Hk'. simpl in Hk'. rewrite IH, Hk'. done.
Qed.

Lemma rmatch_space_cut {R} (ic : bool) (r : regex) (c : ascii) (s2 : list ascii) :
  spaceless ic r = true -> is_space c = true ->
  forall (s1 : list ascii) (g : groups) (k k' : list ascii -> groups -> option R),
    (forall s' g', k (s' ++ c :: s2) g' = k' s' g') ->
    rmatch ic r (s1 ++ c :: s2) g k = rmatch ic r s1 g k'.
Proof.
  intros Hr Hc.
  induction r as [p|rs lo hi| |r1 IH1 r2 IH2|r1 IH1 r2 IH2|r1 IH1|i r1 IH1];
    intros s1 g k k' Hk; cbn [rmatch]; cbn [spaceless] in Hr.
  - apply (forallb_all_ascii _ c) in Hr. cbv beta in Hr.
    rewrite Hc in Hr. apply negb_true_iff in Hr. cbn [andb] in Hr.
    destruct s1 as [|a s1]; simpl; [by rewrite Hr|].
    by rewrite Hk.
  - apply (forallb_all_ascii _ c) in Hr. cbv beta in Hr.
    rewrite Hc in Hr. apply negb_true_iff in Hr. cbn [andb] in Hr.
    apply rep_space_cut; [done|]. intros s'. apply Hk.
  - apply (Hk s1).
  - apply andb_true_iff in Hr as [H1 H2].
    apply IH1; [done|]. intros s' g'. by apply IH2.
  - apply andb_true_iff in Hr as [H1 H2].
    rewrite (IH1 H1 s1 g k k' Hk), (IH2 H2 s1 g k k' Hk). done.
  - rewrite (IH1 Hr s1 g k k' Hk), (Hk s1). done.
  - apply IH1; [done|]. intros s' g'. rewrite Hk. do 2 f_equal.
    rewrite !length_app. simpl.
    replace (length s1 + S (length s2) - (length s' + S (length s2)))%nat
      with (length s1 - length s')%nat by lia.
    rewrite take_app_le by lia. done.
Qed.

Lemma match_at_space_cut (ic : bool) (r : regex) (c : ascii) (s1 s2 : list ascii) :
  spaceless ic r = true -> is_space c = true ->
  match_at ic r (s1 ++ c :: s2) = match_at ic r s1.
Proof. intros Hr Hc. unfold match_at. by apply rmatch_space_cut. Qed.

Lemma search_from_space_cut (ic : bool) (r : regex) (c : ascii) (s1 s2 : list ascii) :
  spaceless ic r = true -> is_space c = true ->
  search_from ic r (s1 ++ c :: s2) =
  match search_from ic r s1 with
  | Some g => Some g
  | None => search_from ic r s2
  end.
Proof.
  intros Hr Hc. induction s1 as [|a s1 IH].
  - pose proof (match_at_space_cut ic r c [] s2 Hr Hc) as Hcut.
    simpl in *. rewrite Hcut. by destruct (match_at ic r []).
  - pose proof (match_at_space_cut ic r c (a :: s1) s2 Hr Hc) as Hcut.
    simpl in *. rewrite Hcut, IH. by destruct (match_at ic r (a :: s1)).
Qed.

Lemma search_from_space_head (ic : bool) (r : regex) (c : ascii) (s2 : list ascii) :
  spaceless ic r = true -> match_at ic r [] = None -> is_space c = true ->
  search_from ic r (c :: s2) = search_from ic r s2.
Proof.
  intros Hr Hnil Hc. pose proof (search_from_space_cut ic r c [] s2 Hr Hc) as Hcut.
  simpl in Hcut. rewrite Hnil in Hcut. exact Hcut.
Qed.

Lemma search_from_spaces (ic : bool) (r : regex) (ws : list ascii) :
  spaceless ic r = true -> match_at ic r [] = None ->
  Forall (fun c => is_space c = true) ws ->
  search_from ic r ws = None.
Proof.
  intros Hr Hnil Hws. induction Hws as [|c ws Hc _ IH].
  - simpl. by rewrite Hnil.
  - by rewrite search_from_space_head.
Qed.

Lemma rstrip_split (l : list ascii) :
  exists ws, l = rstrip l ++ ws /\ Forall (fun c => is_space c = true) ws.
Proof.
  induction l as [|c l (ws & IH & Hws)]; simpl.
  - by exists [].
  - destruct (rstrip l) as [|b r].
    + simpl in IH. subst l. destruct (is_space c) eqn:Hc.
      * exists (c :: ws). split; [done|by constructor].
      * by exists ws.
    + exists ws. split; [|done]. by rewrite IH at 1.
Qed.

Lemma search_from_lstrip (ic : bool) (r : regex) (l : list ascii) :
  spaceless ic r = true -> match_at ic r [] = None ->
  search_from ic r (lstrip l) = search_from ic r l.
Proof.
  intros Hr Hnil. induction l as [|c l IH]; [done|]. simpl lstrip.
  destruct (is_space c) eqn:Hc; [|done].
  by rewrite IH, search_from_space_head.
Qed.

Lemma search_from_rstrip (ic : bool) (r : regex) (l : list ascii) :
  spaceless ic r = true -> match_at ic r [] = None ->
  search_from ic r (rstrip l) = search_from ic r l.
Proof.
  intros Hr Hnil. destruct (rstrip_split l) as (ws & Hl & Hws).
  rewrite Hl at 2. destruct Hws as [|c ws Hc Hws]; [by rewrite app_nil_r|].
  rewrite (search_from_space_cut ic r c _ ws Hr Hc).
  rewrite (search_from_spaces ic r ws Hr Hnil Hws).
  by destruct (search_from ic r (rstrip l)).
Qed.

Lemma search_strip (ic : bool) (r : regex) (s : string) :
  spaceless ic r = true -> match_at ic r [] = None ->
  search ic r (strip s) = search ic r s.
Proof.
  intros Hr Hnil. unfold search, strip. rewrite chars_str.
  by rewrite search_from_rstrip, search_from_lstrip.
Qed.

(** ** The identifier parser *)

Lemma INVITE_RE_spaceless : spaceless IGNORECASE INVITE_RE = true.
Proof. vm_compute. reflexivity. Qed.

Lemma USERNAME_RE_spaceless : spaceless IGNORECASE USERNAME_RE = true.
Proof. vm_compute. reflexivity. Qed.

(** [parse_input] decides on the raw string as it does on the stripped
    one: an invite match first, then a username match. *)
Lemma parse_input_search (raw : string) :
  parse_input raw =
  match search IGNORECASE INVITE_RE raw with
  | Some m_inv => ("invite", or_ostr (group m_inv 1) (group m_inv 2))
  | None =>
      match search IGNORECASE USERNAME_RE raw with
      | Some m_user => ("username", or_ostr (group m_user 1) (group m_user 2))
      | None => ("unknown", None)
      end
  end.
Proof.
  unfold parse_input.
  rewrite <- (search_strip IGNORECASE INVITE_RE raw INVITE_RE_spaceless eq_refl).
  rewrite <- (search_strip IGNORECASE USERNAME_RE raw USERNAME_RE_spaceless eq_refl).
  destruct (strip raw) as [|c s]; done.
Qed.

Lemma length_str (l : list ascii) : String.length (str l) = length l.
Proof. unfold str. induction l as [|c l IH]; simpl; [done|]. by rewrite IH. Qed.

Lemma truthy_str_long (l : list ascii) : (0 < length l)%nat -> truthy_str (str l) = true.
Proof. destruct l; simpl; [lia|done]. Qed.

(** Under [re.IGNORECASE] a literal matches the characters that lower-case
    to it, and a literal that is no letter matches only itself. *)
Lemma chr_ok_lower (p c : ascii) :
  forallb (fun c => implb (chr_ok IGNORECASE p c) (Ascii.eqb (lower_char c) p)) all_ascii
  = true ->
  chr_ok IGNORECASE p c = true -> lower_char c = p.
Proof.
  intros Hall Hc. apply (forallb_all_ascii _ c) in Hall. cbv beta in Hall.
  rewrite Hc in Hall. by apply Ascii.eqb_eq.
Qed.

Lemma chr_ok_exact (p c : ascii) :
  forallb (fun c => implb (chr_ok IGNORECASE p c) (Ascii.eqb c p)) all_ascii = true ->
  chr_ok IGNORECASE p c = true -> c = p.
Proof.
  intros Hall Hc. apply (forallb_all_ascii _ c) in Hall. cbv beta in Hall.
  rewrite Hc in Hall. by apply Ascii.eqb_eq.
Qed.

Lemma username_class_exact (c : ascii) :
  cls_ok IGNORECASE username_class c = true -> word_char c = true.
Proof.
  intros Hc.
  assert (Hall : forallb (fun c => implb (cls_ok IGNORECASE username_class c)
                                     (word_char c)) all_ascii = true)
    by (vm_compute; reflexivity).
  apply (forallb_all_ascii _ c) in Hall. cbv beta in Hall. by rewrite Hc in Hall.
Qed.

Lemma invite_class_exact (c : ascii) :
  cls_ok IGNORECASE invite_class c = true -> code_char c = true.
Proof.
  intros Hc.
  assert (Hall : forallb (fun c => implb (cls_ok IGNORECASE invite_class c)
                                     (code_char c)) all_ascii = true)
    by (vm_compute; reflexivity).
  apply (forallb_all_ascii _ c) in Hall. cbv beta in Hall. by rewrite Hc in Hall.
Qed.

Ltac invert H := inversion H; subst; clear H.

(* Membership in appended and consed lists. *)
Ltac elem_tac :=
  repeat first [rewrite elem_of_app | rewrite elem_of_cons]; intuition.

Ltac inv_matches :=
  repeat match goal with
    | H : matches _ (Seq _ _) _ _ _ |- _ => invert H
    | H : matches _ (Grp _ _) _ _ _ |- _ => invert H
    | H : matches _ (Cls _ _ _) _ _ _ |- _ => invert H
    | H : matches _ (Chr _) _ _ _ |- _ => invert H
    | H : matches _ (lit _) _ _ _ |- _ => apply matches_lit in H as [-> H]
    | H : matches _ scheme _ _ _ |- _ =>
        apply (matches_groupless _ scheme _ _ _ eq_refl) in H; subst
    end.

(** A match of the username pattern: an optional scheme, then either
    [t.me/] in any case or [@], then the handle, which is group 1 or 2. *)
Lemma USERNAME_RE_match (w : list ascii) (m : groups) :
  matches IGNORECASE USERNAME_RE w ∅ m ->
  exists lead link h,
    w = lead ++ link ++ h /\
    ((lead = [] /\ link = chars "@") \/ map lower_char link = chars "t.me/") /\
    Forall (fun c => word_char c = true) h /\
    (5 <= length h <= 32)%nat /\
    or_ostr (group m 1) (group m 2) = Some (str h).
Proof.
  unfold USERNAME_RE. intros Hm.
  inversion Hm as [| | | |? ? ? ? ? Hl|? ? ? ? ? Hr| | |]; subst; clear Hm.
  - inversion Hl as [| | |? ? lead rest ? ? ? Hs Hrest| | | | |]; subst; clear Hl.
    apply (matches_groupless _ scheme _ _ _ eq_refl) in Hs. subst.
    inv_matches.
    match goal with H : Forall2 _ (chars "t.me/") ?l |- _ =>
      rename H into Hlit; rename l into link end.
    match goal with H : Forall _ ?l |- _ => rename H into Hh; rename l into h end.
    exists lead, link, h. split; [done|]. split; [right|split; [|split]].
    + repeat match goal with
        | H : Forall2 _ (chars _) _ |- _ => simpl in H
        | H : Forall2 _ (_ :: _) _ |- _ => invert H
        | H : Forall2 _ [] _ |- _ => invert H
        end.
      simpl.
      repeat match goal with
        | H : chr_ok _ _ _ = true |- _ =>
            apply chr_ok_lower in H; [rewrite H; clear H|vm_compute; reflexivity]
        end.
      done.
    + eapply Forall_impl; [exact Hh|]. intros c. apply username_class_exact.
    + match goal with H : forall n, Some _ = Some n -> _ |- _ =>
        specialize (H _ eq_refl) end. lia.
    + unfold group. rewrite lookup_insert_eq. unfold or_ostr. simpl.
      rewrite truthy_str_long by lia. done.
  - inv_matches.
    match goal with H : Forall _ ?l |- _ => rename H into Hh; rename l into h end.
    match goal with H : chr_ok _ _ ?c = true |- _ =>
      apply chr_ok_exact in H; [subst c|vm_compute; reflexivity] end.
    exists [], (chars "@"), h. split; [done|]. split; [by left|split; [|split]].
    + eapply Forall_impl; [exact Hh|]. intros c. apply username_class_exact.
    + match goal with H : forall n, Some _ = Some n -> _ |- _ =>
        specialize (H _ eq_refl) end. lia.
    + unfold group. rewrite lookup_insert_ne by done. rewrite lookup_empty.
      by rewrite lookup_insert_eq.
Qed.

(** A match of the invite pattern: a lead holding [t.me/] or [tg://], then
    the code, which is group 1 or 2. *)
Lemma INVITE_RE_match (w : list ascii) (m : groups) :
  matches IGNORECASE INVITE_RE w ∅ m ->
  exists lead h,
    w = lead ++ h /\
    ("."%char ∈ lead \/ ":"%char ∈ lead) /\
    Forall (fun c => code_char c = true) h /\
    (16 <= length h)%nat /\
    or_ostr (group m 1) (group m 2) = Some (str h).
Proof.
  unfold INVITE_RE. intros Hm.
  inversion Hm as [| | | |? ? ? ? ? Hl|? ? ? ? ? Hr| | |]; subst; clear Hm.
  - inv_matches.
    match goal with H : matches _ (Alt _ _) ?l _ _ |- _ =>
      apply (matches_groupless _ (Alt (lit "joinchat/") (Chr "+")) _ _ _ eq_refl) in H;
      subst; rename l into mid end.
    inv_matches.
    match goal with H : Forall2 _ (chars "t.me/") ?l |- _ =>
      rename H into Hlit; rename l into link end.
    match goal with H : Forall _ ?l |- _ => rename H into Hh; rename l into h end.
    match goal with |- context [?l ++ link ++ mid ++ h] => rename l into lead end.
    exists (lead ++ link ++ mid), h. split; [by rewrite <- !app_assoc|].
    split; [left|split; [|split]].
    + simpl in Hlit.
      inversion Hlit as [|? c1 ? l1 _ Hl1]; subst.
      inversion Hl1 as [|? c2 ? l2 Hdot _]; subst.
      apply chr_ok_exact in Hdot; [subst c2|vm_compute; reflexivity].
      elem_tac.
    + eapply Forall_impl; [exact Hh|]. intros c. apply invite_class_exact.
    + lia.
    + unfold group. rewrite lookup_insert_eq. unfold or_ostr. simpl.
      rewrite truthy_str_long by lia. done.
  - inv_matches.
    match goal with H : Forall2 _ (chars _) ?l |- _ =>
      rename H into Hlit; rename l into link end.
    match goal with H : Forall _ ?l |- _ => rename H into Hh; rename l into h end.
    exists link, h. split; [done|]. split; [right|split; [|split]].
    + simpl in Hlit.
      inversion Hlit as [|? c1 ? l1 _ Hl1]; subst.
      inversion Hl1 as [|? c2 ? l2 _ Hl2]; subst.
      inversion Hl2 as [|? c3 ? l3 Hcolon _]; subst.
      apply chr_ok_exact in Hcolon; [subst c3|vm_compute; reflexivity].
      elem_tac.
    + eapply Forall_impl; [exact Hh|]. intros c. apply invite_class_exact.
    + lia.
    + unfold group. rewrite lookup_insert_ne by done. rewrite lookup_empty.
      by rewrite lookup_insert_eq.
Qed.

(** C6. A raw string in which both the invite pattern and the username
    pattern find a match is parsed as an invite whose payload is the code
    the invite pattern captured, at least 16 characters of [A-Za-z0-9_-],
    and not as a username. *)
Theorem invite_takes_precedence (raw : string) :
  pattern_matches INVITE_RE raw = true ->
  pattern_matches USERNAME_RE raw = true ->
  exists (m_inv : groups) (code : string),
    search IGNORECASE INVITE_RE raw = Some m_inv /\
    or_ostr (group m_inv 1) (group m_inv 2) = Some code /\
    parse_input raw = ("invite", Some code) /\
    (16 <= String.length code)%nat /\
    Forall (fun c => code_char c = true) (chars code) /\
    (parse_input raw).1 <> "username".
Proof.
  unfold pattern_matches. intros Hinv _.
  rewrite parse_input_search.
  destruct (search IGNORECASE INVITE_RE raw) as [m|] eqn:Hs; [|done].
  destruct (search_from_sound _ _ _ _ Hs) as (pre & w & post & _ & Hm).
  destruct (INVITE_RE_match w m Hm) as (lead & h & _ & _ & Hh & Hlen & Hcode).
  exists m, (str h). split; [done|]. split; [done|]. rewrite Hcode.
  split; [done|]. rewrite length_str, chars_str. done.
Qed.

Lemma invite_takes_precedence_witness :
  exists (m_inv : groups) (code : string),
    search IGNORECASE INVITE_RE "https://t.me/joinchat/AAAAAAAAAAAAAAAAAA" = Some m_inv /\
    or_ostr (group m_inv 1) (group m_inv 2) = Some code /\
    parse_input "https://t.me/joinchat/AAAAAAAAAAAAAAAAAA" = ("invite", Some code) /\
    (16 <= String.length code)%nat /\
    Forall (fun c => code_char c = true) (chars code) /\
    (parse_input "https://t.me/joinchat/AAAAAAAAAAAAAAAAAA").1 <> "username".
Proof.
  apply (invite_takes_precedence "https://t.me/joinchat/AAAAAAAAAAAAAAAAAA");
    vm_compute; reflexivity.
Defined.


(** ** Worked examples *)

Example parse_bare_handle : parse_input "@telegram" = ("username", Some "telegram").
Proof. vm_compute. reflexivity. Qed.

Example parse_link_like_bare_handle :
  parse_input "  https://T.me/telegram " = parse_input "@telegram".
Proof. vm_compute. reflexivity. Qed.

Example parse_invite_link :
  parse_input "https://t.me/joinchat/AAAAAAAAAAAAAAAAAA"
  = ("invite", Some "AAAAAAAAAAAAAAAAAA").
Proof. vm_compute. reflexivity. Qed.

Example parse_deep_link :
  parse_input "tg://join?invite=abcdefghijklmnop-_ and more"
  = ("invite", Some "abcdefghijklmnop-_").
Proof. vm_compute. reflexivity. Qed.

Example parse_free_text : parse_input "not a telegram link at all" = ("unknown", None).
Proof. vm_compute. reflexivity. Qed.

Example parse_long_handle :
  parse_input "@abcdefghijklmnopqrstuvwxyz0123456789"
  = ("username", Some "abcdefghijklmnopqrstuvwxyz012345").
Proof. vm_compute. reflexivity. Qed.

Example expired_invite :
  let fault := {| exc_type := OtherError "InviteHashExpiredError";
                  exc_str := "The chat the user tried to join has expired" |} in
  let client :=
    scripted_client (Raise fault) (Ret {| chats := []; users := [] |}) (Ret None) in
  exists r,
    check_invite client "AAAAAAAAAAAAAAAAAA" tt = (Ret r, tt) /\
    status r = "invalid: InviteHashExpiredError" /\
    _english_reason (status r) (extra r) = "invite expired".
Proof. eexists. split; [reflexivity|]. vm_compute. done. Qed.

Example resolved_channel :
  let entity := Channel (Some false) (Some "telegram") (Some true) (Some "Telegram") in
  let full := {| full_chat := Some {| full_participants_count := Some 100;
                                      requests_pending := Some 0 |} |} in
  let client :=
    scripted_client (Ret OtherInvite) (Ret {| chats := [entity]; users := [] |})
      (Ret (Some full)) in
  check_username "not occupied" client "telegram" tt =
  (Ret {| input_value := "telegram"; status := "resolved"; kind := "channel";
          visibility := "public"; verified := Some true;
          requires_approval := None; member_count := Some 100;
          title := Some "Telegram"; username := Some "telegram";
          extra := None |}, tt).
Proof. reflexivity. Qed.

Example read_input_column :
  read_values [["id"; "input"]; ["1"; " @durov "]; []; ["2"]; ["3"; "t.me/telegram"]]
  = ["@durov"; "t.me/telegram"].
Proof. vm_compute. reflexivity. Qed.

Example read_first_column :
  read_values [["@durov"; "x"]; ["  "]; ["Input"]; [" t.me/telegram "]]
  = ["@durov"; "t.me/telegram"].
Proof. vm_compute. reflexivity. Qed.

Example compact_of_channel :
  _format_compact_en
    {| input_value := "@telegram"; status := "resolved"; kind := "channel";
       visibility := "public"; verified := Some true; requires_approval := None;
       member_count := Some 100; title := Some "Telegram";
       username := Some "telegram"; extra := None |}
  = "type: Channel | visibility: Public | members: 100 | verified: Yes | username: @telegram".
Proof. vm_compute. reflexivity. Qed.

Example minimal_of_channel :
  _format_minimal_en
    {| input_value := "@telegram"; status := "resolved"; kind := "channel";
       visibility := "public"; verified := Some true; requires_approval := Some false;
       member_count := Some 100; title := Some "Telegram";
       username := Some "telegram"; extra := None |}
  = "Channel Public +verified +@telegram m=100".
Proof. vm_compute. reflexivity. Qed.

Example minimal_of_unknown :
  _format_minimal_en (unrecognized "x") = "Unknown Unknown".
Proof. vm_compute. reflexivity. Qed.

(** ** Further properties of the parser *)

Lemma search_from_padding (ic : bool) (r : regex) (ws1 l ws2 : list ascii) :
  spaceless ic r = true -> match_at ic r [] = None ->
  Forall (fun c => is_space c = true) ws1 ->
  Forall (fun c => is_space c = true) ws2 ->
  search_from ic r (ws1 ++ l ++ ws2) = search_from ic r l.
Proof.
  intros Hr Hnil H1 H2. induction H1 as [|c ws1 Hc _ IH].
  - simpl. destruct H2 as [|c ws2 Hc H2]; [by rewrite app_nil_r|].
    rewrite (search_from_space_cut ic r c l ws2 Hr Hc).
    rewrite (search_from_spaces ic r ws2 Hr Hnil H2).
    by destruct (search_from ic r l).
  - rewrite <- app_comm_cons.
    by rewrite (search_from_space_head ic r c _ Hr Hnil Hc).
Qed.

(** X1. White space around an identifier does not matter: the stripped
    string parses like the raw one, and so does the raw string with any
    white space put before and after it. *)
Theorem parse_input_padding :
  (forall raw, parse_input (strip raw) = parse_input raw) /\
  (forall lead raw trail,
     Forall (fun c => is_space c = true) (chars lead) ->
     Forall (fun c => is_space c = true) (chars trail) ->
     parse_input (lead +:+ raw +:+ trail) = parse_input raw).
Proof.
  split.
  - intros raw. rewrite !parse_input_search.
    rewrite (search_strip IGNORECASE INVITE_RE raw INVITE_RE_spaceless eq_refl).
    rewrite (search_strip IGNORECASE USERNAME_RE raw USERNAME_RE_spaceless eq_refl).
    done.
  - intros lead raw trail Hl Ht. rewrite !parse_input_search.
    unfold search. rewrite !chars_append.
    rewrite (search_from_padding _ _ _ _ _ INVITE_RE_spaceless eq_refl Hl Ht).
    rewrite (search_from_padding _ _ _ _ _ USERNAME_RE_spaceless eq_refl Hl Ht).
    done.
Qed.



(** *** What the greedy repetition takes *)

Lemma rep_greedy {R} (ok : ascii -> bool) (k : list ascii -> option R) :
  (forall s', k s' <> None) ->
  forall (s : list ascii) (lo : nat) (hi : option nat),
    rep ok lo hi s k =
    if (lo <=? run_length ok hi s)%nat
    then k (drop (run_length ok hi s) s) else None.
Proof.
  intros Hk. induction s as [|c s IH]; intros lo hi; simpl.
  - by destruct lo.
  - destruct (ok c && room hi); [|by destruct lo].
    rewrite IH. destruct (Nat.leb_spec (pred lo) (run_length ok (less hi) s)) as [Hle|Hgt].
    + destruct (k (drop (run_length ok (less hi) s) s)) eqn:Hks; [|by apply Hk in Hks].
      destruct (Nat.leb_spec lo (S (run_length ok (less hi) s))); [done|lia].
    + destruct (Nat.leb_spec lo (S (run_length ok (less hi) s))); [lia|].
      destruct lo; [lia|done].
Qed.

Lemma run_length_all (ok : ascii -> bool) (s : list ascii) (hi : option nat) :
  Forall (fun c => ok c = true) s ->
  run_length ok hi s = match hi with Some n => min n (length s) | None => length s end.
Proof.
  intros Hs. revert hi. induction Hs as [|c s Hc _ IH]; intros hi; simpl.
  - destruct hi; lia.
  - rewrite Hc. destruct hi as [[|n]|]; simpl; rewrite ?IH; simpl; lia.
Qed.

Lemma take_consumed {A} (n : nat) (s : list A) :
  take (length s - length (drop n s)) s = take n s.
Proof.
  rewrite length_drop. destruct (Nat.le_gt_cases n (length s)).
  - f_equal. lia.
  - rewrite !take_ge by lia. done.
Qed.

Lemma word_char_cls (c : ascii) :
  word_char c = true -> cls_ok IGNORECASE username_class c = true.
Proof. unfold word_char, cls_ok. by intros ->. Qed.

Lemma code_char_cls (c : ascii) :
  code_char c = true -> cls_ok IGNORECASE invite_class c = true.
Proof. unfold code_char, cls_ok. by intros ->. Qed.

Lemma search_from_at (ic : bool) (r : regex) (s : list ascii) (g : groups) :
  match_at ic r s = Some g -> search_from ic r s = Some g.
Proof. intros H. destruct s; simpl; by rewrite H. Qed.

(** A class repetition in a group at the end of a pattern captures the
    whole run, cut at the upper bound. *)
Lemma rep_group_end (ok : ascii -> bool) (lo : nat) (hi : option nat)
    (l : list ascii) (i : nat) (g : groups) :
  Forall (fun c => ok c = true) l ->
  (lo <= length l)%nat -> (forall n, hi = Some n -> (lo <= n)%nat) ->
  rep ok lo hi l (fun s' => Some (<[i := str (take (length l - length s') l)]> g))
  = Some (<[i := str (match hi with Some n => take n l | None => l end)]> g).
Proof.
  intros Hl Hlo Hhi. rewrite rep_greedy by done.
  rewrite take_consumed, run_length_all by done.
  destruct hi as [n|].
  - specialize (Hhi n eq_refl).
    destruct (Nat.leb_spec lo (min n (length l))); [|lia].
    destruct (Nat.le_gt_cases n (length l)).
    + by rewrite Nat.min_l.
    + rewrite Nat.min_r, !take_ge by lia. done.
  - destruct (Nat.leb_spec lo (length l)); [|lia]. by rewrite take_ge.
Qed.

Lemma find_sub_context (p pre w post : list ascii) :
  find_sub p w = true -> find_sub p (pre ++ w ++ post) = true.
Proof.
  rewrite !find_sub_spec. intros (a & b & ->).
  exists (pre ++ a), (b ++ post). by rewrite <- !app_assoc.
Qed.

Lemma invite_mark_context (pre w post : list ascii) :
  invite_mark w = true -> invite_mark (pre ++ w ++ post) = true.
Proof.
  unfold invite_mark. rewrite !orb_true_iff, !map_app.
  intros [[H|H]|H]; [left; left|left; right|right]; by apply find_sub_context.
Qed.

Lemma find_sub_here (p pre post : list ascii) : find_sub p (pre ++ p ++ post) = true.
Proof. apply find_sub_spec. eauto. Qed.

Lemma chr_ok_fold (p c : ascii) :
  chr_ok IGNORECASE p c = true -> fold_lower c = fold_lower p.
Proof.
  unfold chr_ok. simpl. intros [H|H]%orb_true_iff; apply Ascii.eqb_eq in H; congruence.
Qed.

(** Every match of the invite pattern carries one of the three marks. *)
Lemma INVITE_RE_marked (w : list ascii) (m : groups) :
  matches IGNORECASE INVITE_RE w ∅ m -> invite_mark w = true.
Proof.
  unfold INVITE_RE. intros Hm.
  inversion Hm as [| | | |? ? ? ? ? Hl|? ? ? ? ? Hr| | |]; subst; clear Hm.
  - inversion Hl as [| | |? ? lead rest ? ? ? _ Hrest| | | | |]; subst; clear Hl.
    inversion Hrest as [| | |? ? link rest' ? ? ? _ Hrest'| | | | |]; subst; clear Hrest.
    inversion Hrest' as [| | |? ? mid h ? ? ? Hmid _| | | | |]; subst; clear Hrest'.
    replace (lead ++ link ++ mid ++ h) with ((lead ++ link) ++ mid ++ h)
      by (by rewrite <- app_assoc).
    apply (invite_mark_context (lead ++ link) mid h).
    unfold invite_mark.
    inversion Hmid as [| | | |? ? ? ? ? Hj|? ? ? ? ? Hp| | |]; subst; clear Hmid.
    + apply matches_lit in Hj as [_ Hj]. simpl in Hj.
      repeat match goal with
        | H : Forall2 _ (_ :: _) _ |- _ => inversion H; subst; clear H
        | H : Forall2 _ [] _ |- _ => inversion H; subst; clear H
        end.
      repeat match goal with
        | H : chr_ok _ _ _ = true |- _ => apply chr_ok_fold in H
        end.
      apply orb_true_iff. left. apply orb_true_iff. right. simpl map.
      repeat match goal with H : fold_lower _ = _ |- _ => rewrite H; clear H end.
      vm_compute. reflexivity.
    + inversion Hp; subst.
      match goal with H : chr_ok _ _ ?c = true |- _ =>
        apply chr_ok_exact in H; [subst c|vm_compute; reflexivity] end.
      reflexivity.
  - inversion Hr as [| | |? ? link h ? ? ? Hlit _| | | | |]; subst; clear Hr.
    apply (invite_mark_context [] link h).
    apply matches_lit in Hlit as [_ Hlit]. simpl in Hlit.
    repeat match goal with
      | H : Forall2 _ (_ :: _) _ |- _ => inversion H; subst; clear H
      | H : Forall2 _ [] _ |- _ => inversion H; subst; clear H
      end.
    repeat match goal with
      | H : chr_ok _ _ _ = true |- _ => apply chr_ok_fold in H
      end.
    unfold invite_mark. apply orb_true_iff. right. simpl map.
    repeat match goal with H : fold_lower _ = _ |- _ => rewrite H; clear H end.
    vm_compute. reflexivity.
Qed.

Lemma no_mark_no_invite (raw : string) :
  invite_mark (chars raw) = false -> search IGNORECASE INVITE_RE raw = None.
Proof.
  intros Hmark. destruct (search IGNORECASE INVITE_RE raw) as [m|] eqn:Hs; [|done].
  destruct (search_from_sound _ _ _ _ Hs) as (pre & w & post & Heq & Hm).
  apply INVITE_RE_marked, (invite_mark_context pre w post) in Hm.
  fold (chars raw) in Heq. rewrite <- Heq in Hm. congruence.
Qed.

Lemma starts_with_app_alien (p l b : list ascii) (y : ascii) :
  last p = Some y -> y ∉ b -> starts_with p (l ++ b) = starts_with p l.
Proof.
  revert l b. induction p as [|x p IH]; intros l b Hlast Hy; [done|].
  destruct l as [|c l]; simpl.
  - destruct b as [|c b]; [done|]. simpl.
    destruct (Ascii.eqb_spec x c) as [->|Hne]; [|done]. simpl.
    destruct p as [|x' p].
    + injection Hlast as ->. exfalso. apply Hy. apply elem_of_cons. by left.
    + assert (IHb : starts_with (x' :: p) ([] ++ b) = starts_with (x' :: p) []).
      { apply IH; [by rewrite last_cons_cons in Hlast|].
        intros Hin. apply Hy. apply elem_of_cons. by right. }
      exact IHb.
  - destruct (Ascii.eqb x c); [|done]. simpl.
    destruct p as [|x' p]; [done|].
    apply IH; [|done]. by rewrite last_cons_cons in Hlast.
Qed.

Lemma find_sub_app_alien (p a b : list ascii) (y : ascii) :
  last p = Some y -> y ∉ b -> find_sub p (a ++ b) = find_sub p a.
Proof.
  intros Hlast Hy. induction a as [|c a IH].
  - simpl. destruct (find_sub p b) eqn:Hb.
    + apply find_sub_spec in Hb as (pre & post & ->). exfalso. apply Hy.
      assert (Hin : y ∈ p).
      { destruct p as [|x p]; [done|]. apply last_Some_elem_of. done. }
      elem_tac.
    + destruct p; [done|]. by destruct b.
  - pose proof (starts_with_app_alien p (c :: a) b y Hlast Hy) as Hsw.
    simpl in *. by rewrite IH, Hsw.
Qed.

(** A handle holds no mark of an invite link. *)
Lemma word_chars_unmarked (h : list ascii) :
  Forall (fun c => word_char c = true) h ->
  ("+"%char ∉ h) /\ ("/"%char ∉ map fold_lower h) /\ (":"%char ∉ map fold_lower h).
Proof.
  intros Hh.
  assert (Hall : forallb (fun c => implb (word_char c)
                    (negb (Ascii.eqb c "+") && negb (Ascii.eqb (fold_lower c) "/")
                     && negb (Ascii.eqb (fold_lower c) ":"))) all_ascii = true)
    by (vm_compute; reflexivity).
  assert (Hc : forall c, word_char c = true ->
                 c <> "+"%char /\ fold_lower c <> "/"%char /\ fold_lower c <> ":"%char).
  { intros c Hw. apply (forallb_all_ascii _ c) in Hall. cbv beta in Hall.
    rewrite Hw in Hall. simpl in Hall.
    apply andb_true_iff in Hall as [[H1 H2]%andb_true_iff H3].
    apply negb_true_iff, Ascii.eqb_neq in H1, H2, H3. done. }
  rewrite Forall_forall in Hh. repeat split.
  - intros Hin. by destruct (Hc _ (Hh _ Hin)) as (? & _).
  - intros (c & Heq & Hin)%list_elem_of_fmap. destruct (Hc _ (Hh _ Hin)) as (_ & ? & _).
    congruence.
  - intros (c & Heq & Hin)%list_elem_of_fmap. destruct (Hc _ (Hh _ Hin)) as (_ & _ & ?).
    congruence.
Qed.

Lemma invite_mark_word_tail (link h : list ascii) :
  Forall (fun c => word_char c = true) h ->
  invite_mark (link ++ h) = invite_mark link.
Proof.
  intros (Hplus & Hslash & Hcolon)%word_chars_unmarked.
  unfold invite_mark. rewrite map_app.
  rewrite (find_sub_app_alien (chars "+") link h "+" eq_refl Hplus).
  rewrite (find_sub_app_alien (chars "t/") _ _ "/" eq_refl Hslash).
  rewrite (find_sub_app_alien (chars "g:") _ _ ":" eq_refl Hcolon).
  done.
Qed.

Lemma length_chars (s : string) : length (chars s) = String.length s.
Proof. by rewrite <- (str_chars s) at 2; rewrite length_str. Qed.

Lemma first_chars_all (n : nat) (s : string) :
  (String.length s <= n)%nat -> first_chars n s = s.
Proof.
  intros Hn. unfold first_chars. rewrite take_ge by (rewrite length_chars; lia).
  apply str_chars.
Qed.

(** X3. A handle of at least five characters of [A-Za-z0-9_] is recognised
    behind a bare [@] and behind a [t.me/] link with or without scheme,
    and all four forms give the same payload: the handle itself when it
    has at most 32 characters, else its first 32. *)
Theorem username_forms_agree (h : string) :
  Forall (fun c => word_char c = true) (chars h) ->
  (5 <= String.length h)%nat ->
  parse_input ("@" +:+ h) = ("username", Some (first_chars 32 h)) /\
  parse_input ("t.me/" +:+ h) = ("username", Some (first_chars 32 h)) /\
  parse_input ("http://t.me/" +:+ h) = ("username", Some (first_chars 32 h)) /\
  parse_input ("https://t.me/" +:+ h) = ("username", Some (first_chars 32 h)) /\
  ((String.length h <= 32)%nat -> first_chars 32 h = h).
Proof.
  intros Hh Hlen.
  assert (Hlen' : (5 <= length (chars h))%nat) by (by rewrite length_chars).
  assert (Hcls : Forall (fun c => cls_ok IGNORECASE username_class c = true) (chars h)).
  { eapply Forall_impl; [exact Hh|]. apply word_char_cls. }
  assert (Hrep : forall i : nat,
    rep (cls_ok IGNORECASE username_class) 5 (Some 32%nat) (chars h)
      (fun s' => Some (<[i := str (take (length (chars h) - length s') (chars h))]>
                         (∅ : groups)))
    = Some (<[i := first_chars 32 h]> (∅ : groups))).
  { intros i. apply (rep_group_end _ 5 (Some 32%nat)); [done..|].
    intros n [= <-]. lia. }
  assert (Hpayload : forall i : nat, (i = 1 \/ i = 2)%nat ->
    or_ostr (group (<[i := first_chars 32 h]> ∅) 1)
            (group (<[i := first_chars 32 h]> ∅) 2)
    = Some (first_chars 32 h)).
  { assert (Ht : truthy_str (first_chars 32 h) = true).
    { apply truthy_str_long. rewrite length_take. lia. }
    intros i [->| ->]; unfold group, or_ostr.
    - rewrite lookup_insert_eq. simpl. by rewrite Ht.
    - rewrite lookup_insert_ne by done. rewrite lookup_empty. simpl.
      by rewrite lookup_insert_eq. }
  assert (Hform : forall link i,
    invite_mark (chars link) = false -> (i = 1 \/ i = 2)%nat ->
    match_at IGNORECASE USERNAME_RE (chars link ++ chars h)
      = Some (<[i := first_chars 32 h]> ∅) ->
    parse_input (link +:+ h) = ("username", Some (first_chars 32 h))).
  { intros link i Hmark Hi Hat. rewrite parse_input_search.
    rewrite no_mark_no_invite by (by rewrite chars_append, invite_mark_word_tail).
    unfold search. rewrite chars_append, (search_from_at _ _ _ _ Hat).
    by rewrite Hpayload. }
  repeat split.
  - apply (Hform "@" 2%nat); [done|by right|]. unfold match_at. simpl.
    by rewrite Hrep.
  - apply (Hform "t.me/" 1%nat); [done|by left|]. unfold match_at. simpl.
    by rewrite Hrep.
  - apply (Hform "http://t.me/" 1%nat); [done|by left|]. unfold match_at. simpl.
    by rewrite Hrep.
  - apply (Hform "https://t.me/" 1%nat); [done|by left|]. unfold match_at. simpl.
    by rewrite Hrep.
  - apply first_chars_all.
Qed.

Lemma username_forms_agree_witness :
  parse_input ("@" +:+ "telegram") = ("username", Some (first_chars 32 "telegram")) /\
  parse_input ("t.me/" +:+ "telegram") = ("username", Some (first_chars 32 "telegram")) /\
  parse_input ("http://t.me/" +:+ "telegram")
    = ("username", Some (first_chars 32 "telegram")) /\
  parse_input ("https://t.me/" +:+ "telegram")
    = ("username", Some (first_chars 32 "telegram")) /\
  ((String.length "telegram" <= 32)%nat -> first_chars 32 "telegram" = "telegram").
Proof.
  apply (username_forms_agree "telegram").
  - repeat constructor.
  - simpl. lia.
Defined.

(** X4. A code of at least 16 characters of [A-Za-z0-9_-] is recognised
    whole behind each surface form of an invite link: [t.me/+] and
    [t.me/joinchat/], each with or without [http://] or [https://], and
    the deep link [tg://join?invite=]. *)
Theorem invite_forms_agree (code : string) :
  Forall (fun c => code_char c = true) (chars code) ->
  (16 <= String.length code)%nat ->
  Forall (fun link => parse_input (link +:+ code) = ("invite", Some code))
    ["t.me/+"; "t.me/joinchat/"; "http://t.me/+"; "http://t.me/joinchat/";
     "https://t.me/+"; "https://t.me/joinchat/"; "tg://join?invite="].
Proof.
  intros Hc Hlen.
  assert (Hlen' : (16 <= length (chars code))%nat) by (by rewrite length_chars).
  assert (Hcls : Forall (fun c => cls_ok IGNORECASE invite_class c = true) (chars code)).
  { eapply Forall_impl; [exact Hc|]. apply code_char_cls. }
  assert (Hrep : forall i : nat,
    rep (cls_ok IGNORECASE invite_class) 16 None (chars code)
      (fun s' => Some (<[i := str (take (length (chars code) - length s') (chars code))]>
                         (∅ : groups)))
    = Some (<[i := code]> (∅ : groups))).
  { intros i. rewrite (rep_group_end _ 16 None); [|done..].
    by rewrite str_chars. }
  assert (Hpayload : forall i : nat, (i = 1 \/ i = 2)%nat ->
    or_ostr (group (<[i := code]> ∅) 1) (group (<[i := code]> ∅) 2) = Some code).
  { assert (Ht : truthy_str code = true).
    { destruct code; [simpl in Hlen; lia|done]. }
    intros i [->| ->]; unfold group, or_ostr.
    - rewrite lookup_insert_eq. simpl. by rewrite Ht.
    - rewrite lookup_insert_ne by done. rewrite lookup_empty. simpl.
      by rewrite lookup_insert_eq. }
  assert (Hform : forall link i,
    (i = 1 \/ i = 2)%nat ->
    match_at IGNORECASE INVITE_RE (chars link ++ chars code)
      = Some (<[i := code]> ∅) ->
    parse_input (link +:+ code) = ("invite", Some code)).
  { intros link i Hi Hat. rewrite parse_input_search.
    unfold search. rewrite chars_append, (search_from_at _ _ _ _ Hat).
    by rewrite Hpayload. }
  repeat constructor.
  1-6: apply (Hform _ 1%nat); [by left|]; unfold match_at; simpl; by rewrite Hrep.
  apply (Hform _ 2%nat); [by right|]. unfold match_at. simpl. by rewrite Hrep.
Qed.

Lemma invite_forms_agree_witness :
  Forall (fun link => parse_input (link +:+ "AAAAAAAAAAAAAAAAAA")
                      = ("invite", Some "AAAAAAAAAAAAAAAAAA"))
    ["t.me/+"; "t.me/joinchat/"; "http://t.me/+"; "http://t.me/joinchat/";
     "https://t.me/+"; "https://t.me/joinchat/"; "tg://join?invite="].
Proof.
  apply (invite_forms_agree "AAAAAAAAAAAAAAAAAA").
  - repeat constructor.
  - simpl. lia.
Defined.

(** *** The case of letters *)

Lemma same_case_cases (a b : ascii) :
  same_case a b ->
  a = b \/
  (fold_lower a = b /\ fold_upper b = a /\ fold_upper a = a /\ fold_lower b = b) \/
  (fold_lower b = a /\ fold_upper a = b /\ fold_upper b = b /\ fold_lower a = a).
Proof.
  unfold same_case. intros Hab.
  set (pair_ok := fun a b : ascii =>
    implb (Ascii.eqb (fold_lower a) (fold_lower b))
      (Ascii.eqb a b ||
       (Ascii.eqb (fold_lower a) b && Ascii.eqb (fold_upper b) a &&
        Ascii.eqb (fold_upper a) a && Ascii.eqb (fold_lower b) b) ||
       (Ascii.eqb (fold_lower b) a && Ascii.eqb (fold_upper a) b &&
        Ascii.eqb (fold_upper b) b && Ascii.eqb (fold_lower a) a))).
  assert (Hall : forallb (fun a => forallb (pair_ok a) all_ascii) all_ascii = true)
    by (vm_compute; reflexivity).
  apply (forallb_all_ascii _ a) in Hall. cbv beta in Hall.
  apply (forallb_all_ascii _ b) in Hall. unfold pair_ok in Hall.
  apply Ascii.eqb_eq in Hab. rewrite Hab in Hall. simpl in Hall.
  apply orb_true_iff in Hall as [[H|H]%orb_true_iff|H].
  - left. by apply Ascii.eqb_eq.
  - right. left. rewrite !andb_true_iff, !Ascii.eqb_eq in H. tauto.
  - right. right. rewrite !andb_true_iff, !Ascii.eqb_eq in H. tauto.
Qed.

Lemma chr_ok_same_case (p a b : ascii) :
  same_case a b -> chr_ok IGNORECASE p a = chr_ok IGNORECASE p b.
Proof.
  assert (Hfold : forall c,
            chr_ok IGNORECASE p c = Ascii.eqb (fold_lower p) (fold_lower c)).
  { intros c. unfold chr_ok. simpl. destruct (Ascii.eqb_spec p c) as [->|]; [|done].
    simpl. symmetry. by apply Ascii.eqb_eq. }
  unfold same_case. intros Hab. by rewrite !Hfold, Hab.
Qed.

Lemma cls_ok_same_case (rs : list (ascii * ascii)) (a b : ascii) :
  same_case a b -> cls_ok IGNORECASE rs a = cls_ok IGNORECASE rs b.
Proof.
  intros [->|[(H1 & H2 & H3 & H4)|(H1 & H2 & H3 & H4)]]%same_case_cases; [done|..];
    unfold cls_ok; simpl; rewrite H1, H2, H3, H4;
    destruct (in_ranges rs a), (in_ranges rs b); done.
Qed.

Lemma rep_same_case {R} (P : R -> R -> Prop) (ok : ascii -> bool) :
  (forall a b, same_case a b -> ok a = ok b) ->
  forall (s1 s2 : list ascii), Forall2 same_case s1 s2 ->
  forall (lo : nat) (hi : option nat) (k1 k2 : list ascii -> option R),
    (forall t1 t2, Forall2 same_case t1 t2 -> option_Forall2 P (k1 t1) (k2 t2)) ->
    option_Forall2 P (rep ok lo hi s1 k1) (rep ok lo hi s2 k2).
Proof.
  intros Hok s1 s2 Hs. induction Hs as [|a b s1 s2 Hab Hs IH]; intros lo hi k1 k2 Hk.
  - simpl. destruct lo; [by apply Hk|constructor].
  - simpl. rewrite (Hok a b Hab).
    assert (Hstop : option_Forall2 P
              (match lo with O => k1 (a :: s1) | S _ => None end)
              (match lo with O => k2 (b :: s2) | S _ => None end)).
    { destruct lo; [apply Hk; by constructor|constructor]. }
    destruct (ok b && room hi); [|exact Hstop].
    destruct (IH (pred lo) (less hi) k1 k2 Hk); [by constructor|exact Hstop].
Qed.

Lemma same_case_groups_insert (i : nat) (x y : string) (g1 g2 : groups) :
  same_case_str x y -> same_case_groups g1 g2 ->
  same_case_groups (<[i := x]> g1) (<[i := y]> g2).
Proof.
  intros Hxy Hg j. destruct (decide (i = j)) as [->|Hne].
  - rewrite !lookup_insert_eq. by constructor.
  - rewrite !lookup_insert_ne by done. apply Hg.
Qed.

Lemma rmatch_same_case {R} (P : R -> R -> Prop) (r : regex) :
  forall (s1 s2 : list ascii) (g1 g2 : groups)
         (k1 k2 : list ascii -> groups -> option R),
    Forall2 same_case s1 s2 -> same_case_groups g1 g2 ->
    (forall t1 t2 h1 h2,
       Forall2 same_case t1 t2 -> same_case_groups h1 h2 ->
       option_Forall2 P (k1 t1 h1) (k2 t2 h2)) ->
    option_Forall2 P (rmatch IGNORECASE r s1 g1 k1) (rmatch IGNORECASE r s2 g2 k2).
Proof.
  induction r as [p|rs lo hi| |r1 IH1 r2 IH2|r1 IH1 r2 IH2|r1 IH1|i r1 IH1];
    intros s1 s2 g1 g2 k1 k2 Hs Hg Hk; cbn [rmatch].
  - destruct Hs as [|a b s1 s2 Hab Hs]; [constructor|].
    rewrite (chr_ok_same_case p a b Hab).
    destruct (chr_ok IGNORECASE p b); [by apply Hk|constructor].
  - apply rep_same_case; [apply cls_ok_same_case|done|].
    intros t1 t2 Ht. by apply Hk.
  - by apply Hk.
  - apply IH1; [done..|]. intros t1 t2 h1 h2 Ht Hh. by apply IH2.
  - destruct (IH1 s1 s2 g1 g2 k1 k2 Hs Hg Hk); [by constructor|by apply IH2].
  - destruct (IH1 s1 s2 g1 g2 k1 k2 Hs Hg Hk); [by constructor|by apply Hk].
  - apply IH1; [done..|]. intros t1 t2 h1 h2 Ht Hh. apply Hk; [done|].
    apply same_case_groups_insert; [|done].
    unfold same_case_str. rewrite !chars_str.
    rewrite (Forall2_length _ _ _ Hs), (Forall2_length _ _ _ Ht).
    by apply Forall2_take.
Qed.

Lemma search_from_same_case (r : regex) (s1 s2 : list ascii) :
  Forall2 same_case s1 s2 ->
  option_Forall2 same_case_groups
    (search_from IGNORECASE r s1) (search_from IGNORECASE r s2).
Proof.
  assert (Hat : forall t1 t2, Forall2 same_case t1 t2 ->
            option_Forall2 same_case_groups
              (match_at IGNORECASE r t1) (match_at IGNORECASE r t2)).
  { intros t1 t2 Ht. unfold match_at. apply rmatch_same_case; [done| |].
    - intros i. rewrite !lookup_empty. constructor.
    - intros; by constructor. }
  intros Hs. induction Hs as [|a b s1 s2 Hab Hs IH]; simpl.
  - assert (Hnil : Forall2 same_case [] []) by constructor.
    pose proof (Hat [] [] Hnil) as H0.
    destruct (match_at IGNORECASE r []); [|constructor].
    inversion H0; subst. by constructor.
  - assert (Hcons : Forall2 same_case (a :: s1) (b :: s2)) by (by constructor).
    destruct (Hat (a :: s1) (b :: s2) Hcons); [by constructor|exact IH].
Qed.

(** X5. Changing the case of letters A-Z anywhere in the raw string changes
    neither the kind the parser answers nor, up to the case of letters,
    the payload. *)
Theorem parse_input_ignores_case (raw1 raw2 : string) :
  same_case_str raw1 raw2 ->
  (parse_input raw1).1 = (parse_input raw2).1 /\
  option_Forall2 same_case_str (parse_input raw1).2 (parse_input raw2).2.
Proof.
  intros Hraw. rewrite !parse_input_search.
  assert (Hpay : forall g1 g2, same_case_groups g1 g2 ->
            option_Forall2 same_case_str
              (or_ostr (group g1 1) (group g1 2)) (or_ostr (group g2 1) (group g2 2))).
  { intros g1 g2 Hg. unfold or_ostr, group.
    destruct (Hg 1%nat) as [x y Hxy|]; simpl; [|apply Hg].
    assert (Ht : truthy_str x = truthy_str y).
    { unfold same_case_str in Hxy. destruct x, y; simpl in *; try done; inversion Hxy. }
    rewrite Ht. destruct (truthy_str y); [by constructor|apply Hg]. }
  unfold search.
  destruct (search_from_same_case INVITE_RE _ _ Hraw) as [g1 g2 Hg|].
  - simpl. split; [done|]. by apply Hpay.
  - destruct (search_from_same_case USERNAME_RE _ _ Hraw) as [g1 g2 Hg|].
    + simpl. split; [done|]. by apply Hpay.
    + simpl. split; [done|constructor].
Qed.

Lemma parse_input_ignores_case_witness :
  (parse_input "HTTPS://T.ME/Telegram").1 = (parse_input "https://t.me/telegram").1 /\
  option_Forall2 same_case_str
    (parse_input "HTTPS://T.ME/Telegram").2 (parse_input "https://t.me/telegram").2.
Proof.
  apply (parse_input_ignores_case "HTTPS://T.ME/Telegram" "https://t.me/telegram").
  repeat constructor.
Defined.

(** ** Further properties of the driver and the adapters *)

Lemma parse_input_dispatch (value : string) :
  (exists code, parse_input value = ("invite", Some code) /\ truthy_str code = true) \/
  (exists h, parse_input value = ("username", Some h) /\ truthy_str h = true) \/
  parse_input value = ("unknown", None).
Proof.
  rewrite parse_input_search.
  destruct (search IGNORECASE INVITE_RE value) as [m|] eqn:Hinv.
  - left. destruct (search_from_sound _ _ _ _ Hinv) as (pre & w & post & _ & Hm).
    destruct (INVITE_RE_match w m Hm) as (lead & h & _ & _ & _ & Hlen & ->).
    eexists. split; [done|]. apply truthy_str_long. lia.
  - destruct (search IGNORECASE USERNAME_RE value) as [m|] eqn:Husr; [|by right; right].
    right. left.
    destruct (search_from_sound _ _ _ _ Husr) as (pre & w & post & _ & Hm).
    destruct (USERNAME_RE_match w m Hm) as (lead & link & h & _ & _ & _ & Hlen & ->).
    eexists. split; [done|]. apply truthy_str_long. lia.
Qed.

Section DriverMore.

Context {W : Type}.
Variable invite_adapter username_adapter : string -> M (W := W) CheckResult.

(** The loop hands on whatever holds of every single iteration. *)
Lemma loop_verdicts_with (Q : string -> option CheckResult -> Prop) :
  (forall st value w, exists o w',
      loop_body invite_adapter username_adapter st value w
      = (Ret (record_verdict st o), w') /\ Q value o) ->
  forall (values : list string) (st : loop_state) (w : W),
  exists verdicts w',
    loop invite_adapter username_adapter st values w
    = (Ret (foldl record_verdict st verdicts), w') /\
    Forall2 Q values verdicts.
Proof.
  intros Hbody values. induction values as [|value rest IH]; intros st w; simpl.
  - exists [], w. split; [done|constructor].
  - unfold bind. destruct (Hbody st value w) as (o & w1 & -> & HQ).
    destruct (IH (record_verdict st o) w1) as (vs & w2 & -> & HQs).
    exists (o :: vs), w2. split; [done|by constructor].
Qed.




End DriverMore.


Section RunMore.

Context {W : Type}.
Variable not_occupied_text : string.
Variable client : TelegramClient (W := W).

Lemma check_invite_status (code : string) (w : W) :
  exists r w',
    check_invite client code w = (Ret r, w') /\
    (status r = "valid" \/ (blank r /\ exists name, status r = "invalid: " +:+ name)).
Proof.
  rewrite check_invite_unfold.
  destruct (CheckChatInviteRequest client code w) as [[[]|e] w'];
    do 2 eexists; (split; [reflexivity|]); simpl; try (by left).
  right. split; [done|]. eauto.
Qed.

Lemma check_username_status (uname : string) (w : W) :
  exists r w',
    check_username not_occupied_text client uname w = (Ret r, w') /\
    (status r = "resolved" \/
     (blank r /\ exists name, status r = "invalid_username: " +:+ name \/
                              status r = "error: " +:+ name)).
Proof.
  rewrite check_username_unfold.
  destruct (ResolveUsernameRequest client uname w) as [[resolved|e] w1].
  - destruct (selected resolved) as [entity|].
    + destruct (secondary client entity w1) as [[mc ra] w2].
      do 2 eexists. split; [reflexivity|]. by left.
    + do 2 eexists. split; [reflexivity|]. right. split; [done|].
      exists "UsernameNotOccupiedError". by left.
  - do 2 eexists. split; [reflexivity|]. right.
    destruct (is_username_fault (exc_type e)); (split; [done|]); eauto.
Qed.

Lemma loop_body_result (st : loop_state) (value : string) (w : W) :
  exists o w',
    loop_body (check_invite client) (check_username not_occupied_text client) st value w
    = (Ret (record_verdict st o), w') /\
    exists r, o = Some r /\ input_value r = value /\ status_fits r.
Proof.
  unfold loop_body, status_fits.
  destruct (parse_input_dispatch value) as [(code & Hp & Ht)|[(h & Hp & Ht)|Hp]];
    rewrite Hp; unfold try_except, bind, ret; simpl.
  - rewrite Ht.
    destruct (check_invite_status (or_empty (Some code)) w) as (r & w' & -> & Hst).
    exists (Some (set_input_value r value)), w'. split; [reflexivity|].
    exists (set_input_value r value). split; [reflexivity|].
    simpl. rewrite Hp. simpl. split; [done|].
    destruct Hst as [Hv|[Hb Hn]]; [by left|]. right. right. split; [exact Hb|by left].
  - rewrite Ht.
    destruct (check_username_status (or_empty (Some h)) w) as (r & w' & -> & Hst).
    exists (Some (set_input_value r value)), w'. split; [reflexivity|].
    exists (set_input_value r value). split; [reflexivity|].
    simpl. rewrite Hp. simpl. split; [done|].
    destruct Hst as [Hv|[Hb Hn]]; [by right; left|].
    right. right. split; [exact Hb|]. right. by left.
  - exists (Some (unrecognized value)), w. split; [reflexivity|].
    exists (unrecognized value). split; [reflexivity|].
    simpl. rewrite Hp. simpl. split; [done|].
    right. right. split; [done|]. right. right. done.
Qed.

Lemma verdicts_of_results (values : list string) (verdicts : list (option CheckResult)) :
  Forall2 (fun value o => exists r, o = Some r /\ input_value r = value /\ status_fits r)
    values verdicts ->
  map input_value (omap id verdicts) = values /\
  Forall status_fits (omap id verdicts) /\
  failures verdicts = 0.
Proof.
  induction 1 as [|value o values verdicts (r & -> & Hin & Hfit) _ (IH1 & IH2 & IH3)].
  - done.
  - rewrite omap_id_cons. simpl. rewrite IH1, Hin.
    split; [done|]. split; [by constructor|exact IH3].
Qed.

Lemma run_results (rows : list (list string)) (w : W) :
  exists rs sm w',
    run not_occupied_text client rows w = (Ret (rs, sm), w') /\
    map input_value rs = read_values rows /\
    Forall status_fits rs /\
    sm = summarise {| results := rs; processed := Z.of_nat (length rs); errors := 0 |}.
Proof.
  unfold run, process, bind, ret.
  destruct (loop_verdicts_with (check_invite client)
              (check_username not_occupied_text client) _ loop_body_result
              (read_values rows) initial w) as (vs & w' & -> & Hvs).
  destruct (verdicts_of_results _ _ Hvs) as (Hmap & Hfit & Hfail).
  pose proof (record_verdicts_results vs initial) as Hres.
  pose proof (record_verdicts_processed vs initial) as Hproc.
  pose proof (record_verdicts_errors vs initial) as Herr.
  simpl in Hres, Hproc, Herr.
  do 3 eexists. split; [reflexivity|]. rewrite Hres.
  split; [done|]. split; [done|].
  unfold summarise. simpl. rewrite Hres, Hproc, Herr, Hfail. done.
Qed.

(** X6. A batch keeps the order of its input: the results carry, one for
    one and in the same order, the raw values read from the table. *)
Theorem run_keeps_order (rows : list (list string)) (w : W) :
  exists rs sm w',
    run not_occupied_text client rows w = (Ret (rs, sm), w') /\
    map input_value rs = read_values rows.
Proof.
  destruct (run_results rows w) as (rs & sm & w' & Hrun & Hmap & _).
  eauto.
Qed.

(** X7. In every result of a batch the status goes with the kind its
    input parses to (valid or an "invalid: " fault for an invite, resolved
    or an "invalid_username: " or "error: " fault for a username,
    unrecognized otherwise), and a result that is neither valid nor
    resolved tells nothing about the chat: kind and visibility are
    unknown and every other field is absent. *)
Theorem run_status_fits (rows : list (list string)) (w : W) :
  exists rs sm w',
    run not_occupied_text client rows w = (Ret (rs, sm), w') /\
    Forall status_fits rs /\
    Forall (fun r => is_ok r = false -> blank r) rs.
Proof.
  destruct (run_results rows w) as (rs & sm & w' & Hrun & _ & Hfit & _).
  exists rs, sm, w'. split; [done|]. split; [done|].
  eapply Forall_impl; [exact Hfit|]. intros r Hr Hok. unfold is_ok in Hok.
  destruct Hr as [[_ Hs]|[[_ Hs]|[Hb _]]]; [rewrite Hs in Hok; done..|exact Hb].
Qed.

End RunMore.

(** X9. The full-channel lookup is best effort: two collaborators that
    answer the username resolution alike give results that agree on
    status, kind, visibility, verified, title, username and diagnostic
    text, whatever their full-channel lookups return or raise; only the
    member count and the approval flag can differ. *)
Theorem secondary_lookup_is_best_effort {W : Type} (not_occupied_text : string)
    (client1 client2 : TelegramClient (W := W)) (uname : string) (w : W) :
  ResolveUsernameRequest client1 uname w = ResolveUsernameRequest client2 uname w ->
  exists r1 r2 w1 w2,
    check_username not_occupied_text client1 uname w = (Ret r1, w1) /\
    check_username not_occupied_text client2 uname w = (Ret r2, w2) /\
    input_value r1 = input_value r2 /\ status r1 = status r2 /\
    kind r1 = kind r2 /\ visibility r1 = visibility r2 /\
    verified r1 = verified r2 /\ title r1 = title r2 /\
    username r1 = username r2 /\ extra r1 = extra r2.
Proof.
  intros Hres. rewrite !check_username_unfold, <- Hres.
  destruct (ResolveUsernameRequest client1 uname w) as [[resolved|e] w0].
  - destruct (selected resolved) as [entity|].
    + destruct (secondary client1 entity w0) as [[mc1 ra1] w1].
      destruct (secondary client2 entity w0) as [[mc2 ra2] w2].
      do 4 eexists. split; [reflexivity|]. split; [reflexivity|]. done.
    + do 4 eexists. split; [reflexivity|]. split; [reflexivity|]. done.
  - do 4 eexists. split; [reflexivity|]. split; [reflexivity|]. done.
Qed.

Lemma secondary_lookup_is_best_effort_witness :
  let entity := Channel (Some true) (Some "durov") None (Some "Durov") in
  let resolved := Ret {| chats := [entity]; users := [] |} in
  let full := {| full_chat := Some {| full_participants_count := Some 7;
                                      requests_pending := Some 2 |} |} in
  let client1 := scripted_client (Ret OtherInvite) resolved (Ret (Some full)) in
  let client2 :=
    scripted_client (Ret OtherInvite) resolved
      (Raise {| exc_type := OtherError "FloodWaitError"; exc_str := "wait" |}) in
  exists r1 r2 w1 w2,
    check_username "" client1 "durov" tt = (Ret r1, w1) /\
    check_username "" client2 "durov" tt = (Ret r2, w2) /\
    input_value r1 = input_value r2 /\ status r1 = status r2 /\
    kind r1 = kind r2 /\ visibility r1 = visibility r2 /\
    verified r1 = verified r2 /\ title r1 = title r2 /\
    username r1 = username r2 /\ extra r1 = extra r2.
Proof.
  intros entity resolved full client1 client2.
  apply (secondary_lookup_is_best_effort "" client1 client2 "durov" tt).
  reflexivity.
Defined.

(** ** Further properties of the input table *)

Lemma rstrip_idempotent (l : list ascii) : rstrip (rstrip l) = rstrip l.
Proof.
  induction l as [|c l IH]; [done|]. simpl.
  destruct (rstrip l) as [|b r] eqn:Hr.
  - destruct (is_space c) eqn:Hc; [done|]. simpl. by rewrite Hc.
  - cbn [rstrip]. cbn [rstrip] in IH. by rewrite IH.
Qed.

Lemma lstrip_head (l : list ascii) :
  match lstrip l with c :: _ => is_space c = false | [] => True end.
Proof.
  induction l as [|c l IH]; [done|]. simpl.
  destruct (is_space c) eqn:Hc; [exact IH|]. simpl. done.
Qed.

Lemma rstrip_head (c : ascii) (l : list ascii) :
  is_space c = false -> exists r, rstrip (c :: l) = c :: r.
Proof. intros Hc. simpl. destruct (rstrip l); rewrite ?Hc; eauto. Qed.

Lemma strip_idempotent (s : string) : strip (strip s) = strip s.
Proof.
  unfold strip. rewrite chars_str. f_equal.
  pose proof (lstrip_head (chars s)) as Hhead.
  destruct (lstrip (chars s)) as [|c l] eqn:Hl; [done|].
  destruct (rstrip_head c l Hhead) as (r & Hr).
  rewrite Hr. cbn [lstrip]. rewrite Hhead, <- Hr. apply rstrip_idempotent.
Qed.

(** X10. Every value read from the table is non-empty and already
    stripped, so stripping it again changes nothing; and when the first
    row names no column [input], no value reads "input" in any case. *)
Theorem read_values_are_clean (rows : list (list string)) :
  Forall (fun v => v <> "" /\ strip v = v) (read_values rows) /\
  (in_list "input" (dict_fieldnames rows) = false ->
   Forall (fun v => lower v <> "input") (read_values rows)).
Proof.
  unfold read_values. destruct (in_list "input" (dict_fieldnames rows)).
  - rewrite dict_loop_filter. simpl. split; [|done].
    apply Forall_forall. intros v Hv. apply list_elem_of_In, filter_In in Hv as [Hin Ht].
    split; [by destruct v|].
    apply in_map_iff in Hin as (row & <- & _). apply strip_idempotent.
  - rewrite plain_loop_filter. simpl. split.
    + apply Forall_forall. intros v Hv.
      apply list_elem_of_In, filter_In in Hv as [Hin [Ht _]%andb_true_iff].
      split; [by destruct v|].
      apply in_map_iff in Hin as (row & <- & _). apply strip_idempotent.
    + intros _. apply Forall_forall. intros v Hv.
      apply list_elem_of_In, filter_In in Hv as [_ [_ Hne]%andb_true_iff].
      apply negb_true_iff, String.eqb_neq in Hne. done.
Qed.

(** ** Properties of the tabular export and the formatter *)

Lemma py_str_int_decode (n : Z) :
  DecimalString.NilZero.int_of_string (py_str_int n) = Some (Z.to_int n).
Proof.
  unfold py_str_int. apply DecimalString.NilZero.isi.
  - destruct n as [|p|p]; simpl; [done| |done].
    intros [= H]. by apply DecimalPos.Unsigned.to_uint_nonnil in H.
  - destruct n as [|p|p]; simpl; [done|done|].
    intros [= H]. by apply DecimalPos.Unsigned.to_uint_nonnil in H.
Qed.

Lemma py_str_int_inj (a b : Z) : py_str_int a = py_str_int b -> a = b.
Proof.
  intros H. apply (f_equal DecimalString.NilZero.int_of_string) in H.
  rewrite !py_str_int_decode in H. injection H as H.
  rewrite <- (DecimalZ.of_to a), <- (DecimalZ.of_to b). by rewrite H.
Qed.

Lemma py_str_int_nonempty (n : Z) : py_str_int n <> "".
Proof.
  intros H. pose proof (py_str_int_decode n) as Hd. rewrite H in Hd. done.
Qed.

Lemma normalize_int_inj (a b : option Z) :
  normalize_output (VInt <$> a) = normalize_output (VInt <$> b) -> a = b.
Proof.
  destruct a as [a|], b as [b|]; simpl; intros H.
  - f_equal. by apply py_str_int_inj.
  - by apply py_str_int_nonempty in H.
  - symmetry in H. by apply py_str_int_nonempty in H.
  - done.
Qed.

Lemma normalize_bool_inj (a b : option bool) :
  normalize_output (VBool <$> a) = normalize_output (VBool <$> b) -> a = b.
Proof. destruct a as [[]|], b as [[]|]; simpl; intros H; done. Qed.

Lemma normalize_str (a : option string) :
  normalize_output (VStr <$> a) = match a with Some s => s | None => "" end.
Proof. by destruct a. Qed.

(** X12. An exported row loses nothing it shows except the difference
    between an absent and an empty text: two results with the same row
    agree on input, kind, visibility, member count, verified and
    approval (absent, false and true stay apart), and on username and
    title up to that difference. *)
Theorem export_row_faithful (r1 r2 : CheckResult) :
  export_row r1 = export_row r2 ->
  input_value r1 = input_value r2 /\ kind r1 = kind r2 /\
  visibility r1 = visibility r2 /\ member_count r1 = member_count r2 /\
  verified r1 = verified r2 /\ requires_approval r1 = requires_approval r2 /\
  match username r1 with Some s => s | None => "" end
    = match username r2 with Some s => s | None => "" end /\
  match title r1 with Some s => s | None => "" end
    = match title r2 with Some s => s | None => "" end.
Proof.
  unfold export_row. intros [= Hi Hk Hv Hm Hf Hu Ha Ht].
  rewrite !normalize_str in Hu, Ht.
  apply normalize_int_inj in Hm. apply normalize_bool_inj in Hf, Ha. done.
Qed.

Lemma export_row_faithful_witness :
  let r1 := {| input_value := "@durov"; status := "resolved"; kind := "user";
               visibility := "private"; verified := Some false;
               requires_approval := None; member_count := None;
               title := None; username := None; extra := None |} in
  let r2 := {| input_value := "@durov"; status := "error: X"; kind := "user";
               visibility := "private"; verified := Some false;
               requires_approval := None; member_count := None;
               title := Some ""; username := Some ""; extra := Some "text" |} in
  input_value r1 = input_value r2 /\ kind r1 = kind r2 /\
  visibility r1 = visibility r2 /\ member_count r1 = member_count r2 /\
  verified r1 = verified r2 /\ requires_approval r1 = requires_approval r2 /\
  match username r1 with Some s => s | None => "" end
    = match username r2 with Some s => s | None => "" end /\
  match title r1 with Some s => s | None => "" end
    = match title r2 with Some s => s | None => "" end.
Proof.
  intros r1 r2. apply (export_row_faithful r1 r2). reflexivity.
Defined.

Lemma only_valid_spec (env : option string) :
  only_valid env = false <-> env = Some "0".
Proof.
  unfold only_valid. rewrite negb_false_iff. destruct env as [v|]; simpl.
  - rewrite String.eqb_eq. split; congruence.
  - split; discriminate.
Qed.

Lemma export_filter (keep_ok : bool) (rs : list CheckResult) :
  List.filter (fun r => negb keep_ok || is_ok r) rs
  = if keep_ok then List.filter is_ok rs else rs.
Proof.
  destruct keep_ok; induction rs as [|r rs IH]; simpl in *; try done;
    by rewrite IH.
Qed.

(** X11. The export of a batch starts with the fixed header, every row has
    as many cells as the header, and the data rows carry, in order, the
    raw values of the kept results: the valid and resolved ones, as many
    as the summary's ok count, unless CSV_ONLY_VALID is "0", when every
    result is kept. *)
Theorem export_matches_summary {W : Type} (not_occupied_text : string)
    (client : TelegramClient (W := W)) (rows : list (list string)) (w : W)
    (CSV_ONLY_VALID : option string) :
  exists rs sm w',
    run not_occupied_text client rows w = (Ret (rs, sm), w') /\
    let table := export_table CSV_ONLY_VALID rs in
    head table = Some headers /\
    Forall (fun row => length row = length headers) table /\
    map first_cell (tail table) =
      map input_value
        (List.filter (fun r => negb (only_valid CSV_ONLY_VALID) || is_ok r) rs) /\
    Z.of_nat (length (tail table)) =
      (if only_valid CSV_ONLY_VALID then sum_ok sm else sum_processed sm) /\
    (only_valid CSV_ONLY_VALID = false <-> CSV_ONLY_VALID = Some "0").
Proof.
  destruct (run_results not_occupied_text client rows w)
    as (rs & sm & w' & Hrun & _ & _ & ->).
  do 3 eexists. split; [exact Hrun|]. unfold export_table. cbn [head tail].
  split; [done|]. split; [|split; [|split]].
  - constructor; [done|]. apply Forall_forall. intros row Hrow.
    apply list_elem_of_In, in_map_iff in Hrow as (r & <- & _). done.
  - rewrite map_map. done.
  - rewrite length_map. unfold summarise. cbn [sum_ok sum_processed results processed].
    rewrite export_filter. by destruct (only_valid CSV_ONLY_VALID).
  - apply only_valid_spec.
Qed.

Lemma dict_get_default_unknown (l : list (string * string)) (key : string) :
  Forall (fun p => p.2 <> "Unknown") l ->
  dict_get_default (list_to_map l) key "Unknown" = "Unknown" <-> key ∉ l.*1.
Proof.
  intros Hl. unfold dict_get_default. rewrite not_elem_of_list_to_map.
  destruct (list_to_map l !! key) as [v|] eqn:Hk; [|done].
  split; [|done]. intros ->. apply elem_of_list_to_map_2 in Hk.
  rewrite Forall_forall in Hl. by apply Hl in Hk.
Qed.

(** X13. The kind label is "Unknown" exactly for a kind outside
    supergroup, channel, group and user, and the visibility label exactly
    outside public and private; so what the classifier says of a Channel,
    a Chat or a User never prints as "Unknown", and what it says of any
    other shape always does. *)
Theorem labels_of_entities :
  (forall k, _english_kind k = "Unknown" <->
             k ∉ ["supergroup"; "channel"; "group"; "user"]) /\
  (forall v, _english_visibility v = "Unknown" <-> v ∉ ["public"; "private"]) /\
  (forall entity,
     let '(k, v, _) := classify_chat entity in
     match entity with
     | OtherEntity _ _ =>
         _english_kind k = "Unknown" /\ _english_visibility v = "Unknown"
     | _ => _english_kind k <> "Unknown" /\ _english_visibility v <> "Unknown"
     end).
Proof.
  split; [|split].
  - intros k. unfold _english_kind. rewrite dict_get_default_unknown; [done|].
    repeat constructor; done.
  - intros v. unfold _english_visibility. rewrite dict_get_default_unknown; [done|].
    repeat constructor; done.
  - intros [mg u vf t|vf t|u vf|u t]; simpl.
    + by destruct (truthy_obool mg), (truthy_ostr u).
    + done.
    + by destruct (truthy_ostr u).
    + done.
Qed.

(** X14. The compact form keeps the three states of approval and verified
    apart: it has the part "approval: Yes" exactly for true, "approval: No"
    exactly for false, and neither when the value is absent, and likewise
    for verified; the minimal form has the token "+approval" or "+verified"
    exactly for true, so false and absent look the same there. *)
Theorem tristate_rendering (res : CheckResult) :
  ("approval: Yes" ∈ compact_parts res <-> requires_approval res = Some true) /\
  ("approval: No" ∈ compact_parts res <-> requires_approval res = Some false) /\
  ("verified: Yes" ∈ compact_parts res <-> verified res = Some true) /\
  ("verified: No" ∈ compact_parts res <-> verified res = Some false) /\
  ("+approval" ∈ minimal_tokens res <-> requires_approval res = Some true) /\
  ("+verified" ∈ minimal_tokens res <-> verified res = Some true).
Proof.
  unfold compact_parts, minimal_tokens.
  destruct (member_count res) as [n|], (requires_approval res) as [[]|],
    (verified res) as [[]|], (truthy_ostr (username res));
    cbn [truthy_obool yes_no app];
    repeat split; intros H;
    repeat first [apply elem_of_app in H as [H|H]
                 | apply elem_of_cons in H as [H|H]
                 | apply elem_of_nil in H];
    try done; try discriminate;
    repeat first [rewrite elem_of_app | rewrite elem_of_cons]; tauto.
Qed.

(** ** The requests of a batch *)

Section Requests.

Context {W : Type}.
Variable not_occupied_text : string.
Variable client : TelegramClient (W := W).

Lemma check_invite_logged (code : string) (w : W) (log : list request) :
  check_invite (logged client) code (w, log) =
  let (o, w') := check_invite client code w in
  (o, (w', log ++ [ReqCheckChatInvite code])).
Proof.
  rewrite !check_invite_unfold. simpl.
  destruct (CheckChatInviteRequest client code w) as [[[]|e] w']; done.
Qed.

Lemma secondary_logged (entity : Entity) (w : W) (log : list request) :
  secondary (logged client) entity (w, log) =
  let '(mc, ra, w') := secondary client entity w in
  (mc, ra, (w', log ++ if is_Channel entity then [ReqGetFullChannel entity] else [])).
Proof.
  unfold secondary. destruct (is_Channel entity); simpl.
  - destruct (GetFullChannelRequest client entity w) as [[[[[fc|]]|]|e] w']; done.
  - by rewrite app_nil_r.
Qed.

Lemma check_username_logged (uname : string) (w : W) (log : list request) :
  exists reqs,
    check_username not_occupied_text (logged client) uname (w, log) =
    (let (o, w') := check_username not_occupied_text client uname w in
     (o, (w', log ++ ReqResolveUsername uname :: reqs))) /\
    (reqs = [] \/ exists entity, is_Channel entity = true /\
                                 reqs = [ReqGetFullChannel entity]).
Proof.
  rewrite !check_username_unfold. simpl.
  destruct (ResolveUsernameRequest client uname w) as [[resolved|e] w1].
  - destruct (selected resolved) as [entity|].
    + rewrite secondary_logged.
      destruct (secondary client entity w1) as [[mc ra] w2].
      exists (if is_Channel entity then [ReqGetFullChannel entity] else []).
      split; [by rewrite <- app_assoc|].
      destruct (is_Channel entity) eqn:Hc; [right; eauto|by left].
    + exists []. split; [done|by left].
  - exists []. split; [done|by left].
Qed.

Lemma or_empty_some (s : string) : or_empty (Some s) = s.
Proof. by destruct s. Qed.

Lemma loop_body_logged (st : loop_state) (value : string) (w : W) (log : list request) :
  exists st' w' reqs,
    loop_body (check_invite client) (check_username not_occupied_text client)
      st value w = (Ret st', w') /\
    loop_body (check_invite (logged client))
      (check_username not_occupied_text (logged client)) st value (w, log)
    = (Ret st', (w', log ++ reqs)) /\
    fair_requests value reqs.
Proof.
  unfold loop_body, fair_requests.
  destruct (parse_input_dispatch value) as [(code & Hp & Ht)|[(h & Hp & Ht)|Hp]];
    rewrite Hp; unfold try_except, bind, ret; simpl.
  - rewrite Ht, or_empty_some, check_invite_logged. simpl.
    destruct (check_invite_returns client code w) as (r & w' & ->).
    do 3 eexists. split; [reflexivity|]. split; [reflexivity|]. by left.
  - rewrite Ht, or_empty_some. simpl.
    destruct (check_username_logged h w log) as (reqs & -> & Hreqs).
    destruct (check_username_returns not_occupied_text client h w) as (r & w' & ->).
    do 3 eexists. split; [reflexivity|]. split; [reflexivity|]. right.
    split; [done|]. destruct Hreqs as [->|(entity & Hc & ->)]; [by left|right; eauto].
  - eexists _, w, []. split; [reflexivity|]. split; [by rewrite app_nil_r|done].
Qed.

Lemma loop_logged (values : list string) (st : loop_state) (w : W) (log : list request) :
  exists st' w' reqss,
    loop (check_invite client) (check_username not_occupied_text client)
      st values w = (Ret st', w') /\
    loop (check_invite (logged client))
      (check_username not_occupied_text (logged client)) st values (w, log)
    = (Ret st', (w', log ++ concat reqss)) /\
    Forall2 fair_requests values reqss.
Proof.
  revert st w log. induction values as [|value rest IH]; intros st w log; simpl.
  - exists st, w, []. split; [done|]. split; [by rewrite app_nil_r|constructor].
  - unfold bind.
    destruct (loop_body_logged st value w log) as (st1 & w1 & reqs & -> & -> & Hfair).
    destruct (IH st1 w1 (log ++ reqs)) as (st2 & w2 & reqss & -> & -> & Hfairs).
    exists st2, w2, (reqs :: reqss). split; [done|].
    split; [by rewrite <- app_assoc|by constructor].
Qed.

Lemma fair_requests_counts (value : string) (reqs : list request) :
  fair_requests value reqs ->
  length (List.filter is_invite_request reqs)
    = (if parses_as "invite" value then 1 else 0)%nat /\
  length (List.filter is_resolve_request reqs)
    = (if parses_as "username" value then 1 else 0)%nat /\
  (length (List.filter is_full_request reqs)
    <= if parses_as "username" value then 1 else 0)%nat /\
  Forall (fun q => match q with
                   | ReqGetFullChannel entity => is_Channel entity = true
                   | _ => True
                   end) reqs.
Proof.
  unfold fair_requests, parses_as.
  destruct (parse_input_dispatch value) as [(code & Hp & _)|[(h & Hp & _)|Hp]];
    rewrite Hp; simpl.
  - intros [[_ ->]|[[=] _]]. simpl. repeat split; try lia. by repeat constructor.
  - intros [[[=] _]|[_ [->|(entity & Hc & ->)]]]; simpl;
      (repeat split; try lia); by repeat constructor.
  - intros ->. simpl. repeat split; try lia. constructor.
Qed.

(** X15. A batch sends no request it does not need: with a collaborator
    that logs its requests, the results and the summary are those of the
    plain collaborator, and the log holds one invite check per value
    parsed as invite, one username resolution per value parsed as
    username, at most one full-channel lookup per such value and only for
    a Channel, and nothing else. *)
Theorem request_budget (rows : list (list string)) (w : W) :
  exists rs sm w' log,
    run not_occupied_text client rows w = (Ret (rs, sm), w') /\
    run not_occupied_text (logged client) rows (w, []) = (Ret (rs, sm), (w', log)) /\
    length (List.filter is_invite_request log)
      = length (List.filter (parses_as "invite") (read_values rows)) /\
    length (List.filter is_resolve_request log)
      = length (List.filter (parses_as "username") (read_values rows)) /\
    (length (List.filter is_full_request log)
      <= length (List.filter (parses_as "username") (read_values rows)))%nat /\
    Forall (fun q => match q with
                     | ReqGetFullChannel entity => is_Channel entity = true
                     | _ => True
                     end) log.
Proof.
  unfold run, process, bind, ret.
  destruct (loop_logged (read_values rows) initial w [])
    as (st & w' & reqss & -> & -> & Hfair).
  do 4 eexists. split; [reflexivity|]. split; [reflexivity|]. simpl.
  induction Hfair as [|value reqs values reqss Hv _ (IH1 & IH2 & IH3 & IH4)];
    [by repeat split|].
  destruct (fair_requests_counts value reqs Hv) as (H1 & H2 & H3 & H4).
  cbn [concat List.filter].
  rewrite !List.filter_app, !length_app, H1, H2, IH1, IH2.
  split; [by destruct (parses_as "invite" value)|].
  split; [by destruct (parses_as "username" value)|].
  split; [destruct (parses_as "username" value); simpl; lia|].
  by apply Forall_app.
Qed.

End Requests.

(** ** What a reader of the output sees of the approval flag *)

Lemma approval_part (res : CheckResult) :
  ("approval: Yes" ∈ compact_parts res <-> requires_approval res = Some true) /\
  ("approval: No" ∈ compact_parts res <-> requires_approval res = Some false).
Proof.
  unfold compact_parts.
  destruct (member_count res) as [n|], (requires_approval res) as [[]|],
    (verified res) as [[]|], (truthy_ostr (username res));
    cbn [yes_no app];
    repeat split; intros H;
    repeat first [apply elem_of_app in H as [H|H]
                 | apply elem_of_cons in H as [H|H]
                 | apply elem_of_nil in H];
    try done; try discriminate;
    repeat first [rewrite elem_of_app | rewrite elem_of_cons]; tauto.
Qed.

(** X16. The compact form of a username result never says
    "approval: No": it says "approval: Yes" or nothing. The compact form
    of an invite preview always has an approval part, and it says
    "approval: No" whenever the join-request flag is not set to true,
    also when the flag is missing. *)
Theorem approval_display {W : Type} (not_occupied_text : string)
    (client : TelegramClient (W := W)) (s : string) (w : W) :
  (exists r w',
     check_username not_occupied_text client s w = (Ret r, w') /\
     "approval: No" ∉ compact_parts r) /\
  match CheckChatInviteRequest client s w with
  | (Ret (ChatInvite request_needed _ _ _ _ _), w') =>
      exists r,
        check_invite client s w = (Ret r, w') /\
        ("approval: Yes" ∈ compact_parts r <-> request_needed = Some true) /\
        ("approval: No" ∈ compact_parts r <-> request_needed <> Some true)
  | _ => True
  end.
Proof.
  split.
  - rewrite check_username_unfold.
    assert (Hno : forall r, requires_approval r <> Some false ->
                            "approval: No" ∉ compact_parts r).
    { intros r Hr Hin. by apply approval_part in Hin. }
    destruct (ResolveUsernameRequest client s w) as [[resolved|e] w1].
    + destruct (selected resolved) as [entity|].
      * pose proof (secondary_approval client entity w1) as [Hnf _].
        destruct (secondary client entity w1) as [[mc ra] w2].
        do 2 eexists. split; [reflexivity|]. by apply Hno.
      * do 2 eexists. split; [reflexivity|]. by apply Hno.
    + do 2 eexists. split; [reflexivity|]. apply Hno.
      by destruct (is_username_fault (exc_type e)).
  - rewrite check_invite_unfold.
    destruct (CheckChatInviteRequest client s w) as [[[rn t pc vf ch mg| |]|e] w']; [|done..].
    eexists. split; [reflexivity|].
    destruct (approval_part
      {| input_value := s; status := "valid";
         kind := if truthy_obool ch && truthy_obool mg then "supergroup"
                 else if truthy_obool ch then "channel" else "group";
         visibility := "private"; verified := Some (truthy_obool vf);
         requires_approval := Some (truthy_obool rn);
         member_count := pc; title := Some t; username := None;
         extra := None |}) as [Hyes Hnot].
    rewrite Hyes, Hnot. simpl. destruct rn as [[]|]; simpl; split; split; congruence.
Qed.

(** ** The JSON line *)

Lemma printable_append (a b : string) :
  Forall (fun c => printable c = true) (chars (a +:+ b)) <->
  Forall (fun c => printable c = true) (chars a) /\
  Forall (fun c => printable c = true) (chars b).
Proof. rewrite chars_append. apply Forall_app. Qed.

Lemma json_escape_printable (c : ascii) :
  Forall (fun c => printable c = true) (json_escape c).
Proof.
  assert (Hall : forallb (fun c => forallb printable (json_escape c)) all_ascii = true)
    by (vm_compute; reflexivity).
  apply (forallb_all_ascii _ c) in Hall. cbv beta in Hall.
  rewrite forallb_forall in Hall. apply Forall_forall. intros x Hx.
  by apply Hall, list_elem_of_In.
Qed.

Lemma json_string_printable (s : string) :
  Forall (fun c => printable c = true) (chars (json_string s)).
Proof.
  unfold json_string. rewrite chars_str. constructor; [done|].
  apply Forall_app. split; [|by repeat constructor].
  induction (chars s) as [|c l IH]; [constructor|]. simpl.
  apply Forall_app. split; [apply json_escape_printable|exact IH].
Qed.

Lemma uint_printable (d : Decimal.uint) :
  Forall (fun c => printable c = true) (chars (DecimalString.NilEmpty.string_of_uint d)).
Proof. induction d; simpl; constructor; done. Qed.

Lemma py_str_int_printable (n : Z) :
  Forall (fun c => printable c = true) (chars (py_str_int n)).
Proof.
  unfold py_str_int, DecimalString.NilZero.string_of_int,
    DecimalString.NilZero.string_of_uint.
  destruct (Z.to_int n) as [d|d]; [|constructor; [done|]];
    (destruct d; [by repeat constructor|apply uint_printable..]).
Qed.

Lemma json_value_printable (v : option pyvalue) :
  Forall (fun c => printable c = true) (chars (json_value v)).
Proof.
  destruct v as [[s|n|[]]|]; simpl.
  - apply json_string_printable.
  - apply py_str_int_printable.
  - by repeat constructor.
  - by repeat constructor.
  - by repeat constructor.
Qed.

Lemma join_printable (sep : string) (parts : list string) :
  Forall (fun c => printable c = true) (chars sep) ->
  Forall (fun p => Forall (fun c => printable c = true) (chars p)) parts ->
  Forall (fun c => printable c = true) (chars (join sep parts)).
Proof.
  intros Hsep Hparts. induction Hparts as [|p ps Hp Hps IH]; [constructor|].
  destruct ps as [|q ps]; [exact Hp|].
  change (join sep (p :: q :: ps)) with (p +:+ sep +:+ join sep (q :: ps)).
  rewrite !printable_append. done.
Qed.

(** X17. The JSON line of a result is plain printable ASCII, whatever text
    the result holds: every character lies between the space and the
    tilde, so the line has no line break, no control character and no
    character above 126 in it. *)
Theorem json_record_one_line (res : CheckResult) :
  Forall (fun c => printable c = true) (chars (json_record res)) /\
  (ascii_of_nat 10 ∉ chars (json_record res)) /\
  (ascii_of_nat 13 ∉ chars (json_record res)).
Proof.
  assert (Hitem : forall kv : string * option pyvalue,
            Forall (fun c => printable c = true)
              (chars (json_string kv.1 +:+ ": " +:+ json_value kv.2))).
  { intros kv. rewrite !printable_append.
    split; [apply json_string_printable|].
    split; [by repeat constructor|apply json_value_printable]. }
  assert (Hp : Forall (fun c => printable c = true) (chars (json_record res))).
  { unfold json_record, json_dumps. rewrite !printable_append.
    split; [by repeat constructor|]. split; [|by repeat constructor].
    apply join_printable; [by repeat constructor|].
    apply Forall_forall. intros p Hin.
    apply list_elem_of_fmap in Hin as (kv & -> & _). apply Hitem. }
  split; [exact Hp|]. rewrite Forall_forall in Hp.
  split; intros Hin; apply Hp in Hin; done.
Qed.
